(** * Scribe-Data: the emoji keyword lexicon builder

    A shallow embedding of [gen_emoji_lexicon] from
    [src/scribe_data/extract_transform/process_unicode.py], and the
    properties of the keyword table it returns.

    The function reads three kinds of files (the popularity ranking, two
    CLDR annotation documents, the noun document); their parsed contents
    are the inputs of the model, and a run starts where the language has
    been resolved and the files can be read.  The writes done under
    [update_local_data] happen after the table is complete and are not
    part of the model.  What the function shows under [verbose] is kept as
    a list of events next to the returned value.

    The lists of the table are objects in a store: the plural linkage
    makes keys share a list, and the sort loop then visits a shared list
    once per key. *)

From Stdlib Require Import ZArith NArith String Ascii Lia.
From Stdlib Require Strings.Byte.
From stdpp Require Import base tactics decidable option list numbers sorting.

Local Open Scope Z_scope.

(** ** Python values *)

(** A Python [str] is a sequence of code points; [len] counts them. *)
Abbreviation str := (list N).

(** A [bytes] object. *)
Abbreviation bytes := (list Byte.byte).

#[export] Instance byte_eq_dec : EqDecision Byte.byte := Byte.byte_eq_dec.

(** An ASCII literal of the source as a [str]. *)
Definition lit (s : string) : str :=
  List.map N_of_ascii (list_ascii_of_string s).

(** Exceptions the modelled part of the function can raise. *)
Inductive exn :=
| KeyError (key : str)
| AttributeError
| UnicodeEncodeError.

Inductive result (A : Type) :=
| Ok (a : A)
| Raise (e : exn).
Arguments Ok {A} a.
Arguments Raise {A} e.

(** [result] is a monad: a raised exception skips the rest. *)
#[export] Instance result_ret : MRet result := λ A a, Ok a.
#[export] Instance result_bind : MBind result := λ A B f m,
  match m with
  | Ok a => f a
  | Raise e => Raise e
  end.

#[export] Instance result_fmap : FMap result := λ A B f m,
  match m with
  | Ok a => Ok (f a)
  | Raise e => Raise e
  end.

(** A [for] loop whose body may raise. *)
Fixpoint for_each {A S} (body : S → A → result S) (xs : list A) (s : S)
  : result S :=
  match xs with
  | [] => Ok s
  | x :: xs' => s' ← body s x; for_each body xs' s'
  end.

(** ** Python dictionaries

    A [dict] keeps its keys in insertion order and the loops of the
    function iterate in that order, so a dictionary is an association list
    with each key at most once. *)
Section dict.
Context {V : Type}.
Local Abbreviation dict := (list (str * V)).

(** [d.get(k)] *)
Fixpoint dget (d : dict) (k : str) : option V :=
  match d with
  | [] => None
  | (k', v) :: d' => if decide (k' = k) then Some v else dget d' k
  end.

(** [k in d] *)
Definition dmem (d : dict) (k : str) : bool :=
  match dget d k with Some _ => true | None => false end.

(** [d[k]] *)
Definition getitem (d : dict) (k : str) : result V :=
  match dget d k with Some v => Ok v | None => Raise (KeyError k) end.

(** [d[k] = v]: an existing key keeps its position. *)
Fixpoint dset (d : dict) (k : str) (v : V) : dict :=
  match d with
  | [] => [(k, v)]
  | (k', v') :: d' =>
      if decide (k' = k) then (k', v) :: d' else (k', v') :: dset d' k v
  end.

Definition dkeys (d : dict) : list str := d.*1.
Definition dvalues (d : dict) : list V := d.*2.
End dict.

(** ** Truthiness, slices, [str.split], [str.encode] *)

(** [if n] for [n] an [int] or [None]. *)
Definition truthy (n : option Z) : bool :=
  match n with
  | None => false
  | Some z => negb (z =? 0)
  end.

(** [l[:k]], for a negative [k] counted from the end. *)
Definition slice_to {A} (k : Z) (l : list A) : list A :=
  if k <? 0 then take (Z.to_nat (Z.of_nat (length l) + k)) l
  else take (Z.to_nat k) l.

Section split.
Variable isspace : N → bool.

(** [s.split()]: the maximal runs of non-whitespace of [s]. [word] is the
    run being read. *)
Fixpoint split_from (word : str) (s : str) : list str :=
  match s with
  | [] => match word with [] => [] | _ => [word] end
  | c :: s' =>
      if isspace c then
        match word with
        | [] => split_from [] s'
        | _ => word :: split_from [] s'
        end
      else split_from (word ++ [c]) s'
  end.

Definition split (s : str) : list str := split_from [] s.
End split.

(** The byte of a number below 256. *)
Definition octet (n : N) : Byte.byte := default Byte.x00 (Byte.of_N n).

(** [chr(c).encode("utf-8")]; a surrogate has no encoding. *)
Definition utf8_char (c : N) : option bytes :=
  let continuation (x : N) : Byte.byte := octet (N.lor 128 (N.land x 63)) in
  if (c <? 128)%N then Some [octet c]
  else if (c <? 2048)%N then
    Some [octet (N.lor 192 (N.shiftr c 6)); continuation c]
  else if (c <? 65536)%N then
    if (55296 <=? c)%N && (c <=? 57343)%N then None
    else Some [octet (N.lor 224 (N.shiftr c 12));
               continuation (N.shiftr c 6); continuation c]
  else if (c <? 1114112)%N then
    Some [octet (N.lor 240 (N.shiftr c 18)); continuation (N.shiftr c 12);
          continuation (N.shiftr c 6); continuation c]
  else None.

(** [s.encode("utf-8")] *)
Fixpoint encode_utf8 (s : str) : result bytes :=
  match s with
  | [] => Ok []
  | c :: s' =>
      match utf8_char c with
      | None => Raise UnicodeEncodeError
      | Some b => bs ← encode_utf8 s'; Ok (b ++ bs)
      end
  end.

(** ** What the function gets from outside *)

(** The values of [emoji.STATUS]. *)
Inductive emoji_status :=
| component
| fully_qualified
| minimally_qualified
| unqualified.

#[export] Instance emoji_status_eq_dec : EqDecision emoji_status.
Proof. solve_decision. Defined.

(** The library functions and tables the function calls.
    [emoji_codes_to_ignore] is the value of [get_emoji_codes_to_ignore ()],
    defined in another module: a collection of byte-encoded emoji codes. *)
Class Platform := {
  (** [s.lower()] *)
  str_lower : str → str;
  (** the whitespace of [str.split] *)
  isspace : N → bool;
  (** [emoji.EMOJI_DATA[c]["status"]], [None] when [c not in emoji.EMOJI_DATA] *)
  EMOJI_DATA : str → option emoji_status;
  (** [Char.hasBinaryProperty(c, UProperty.EMOJI_MODIFIER_BASE)] *)
  hasBinaryProperty_EMOJI_MODIFIER_BASE : str → bool;
  emoji_codes_to_ignore : list bytes;
}.

(** A value passed as [ignore_keywords], and what a list, tuple or set
    there can hold. *)
Inductive pyitem :=
| ItemStr (s : str)
| ItemInt (z : Z)
| ItemNone.

Inductive pyobj :=
| PNone
| PStr (s : str)
| PInt (z : Z)
| PList (items : list pyitem)
| PTuple (items : list pyitem)
| PSet (items : list pyitem).

(** The parameters of [gen_emoji_lexicon]. [language] only selects the
    files that are read, and [update_local_data] only the writes at the
    end. *)
Record args := {
  num_emojis : option Z;
  emojis_per_keyword : option Z;
  ignore_keywords : pyobj;
  export_base_rank : bool;
  verbose : bool;
}.

(** One entry of a CLDR annotation document; either field can be missing. *)
Record annotation := {
  a_default : option (list str);
  a_tts : option (list str);
}.

(** One entry of [nouns.json]. *)
Record noun := {
  plural : option str;
}.

(** The parsed files. *)
Record files := {
  (** the rows of [2021_ranked.tsv]: [Emoji] and [int(Rank)] *)
  ranked_tsv : list (str * Z);
  (** [cldr_data["annotations"]["annotations"]] *)
  annotations : list (str * annotation);
  (** [cldr_data["annotationsDerived"]["annotations"]] *)
  annotationsDerived : list (str * annotation);
  (** [noun_data] *)
  nouns_json : list (str * noun);
}.

(** ** The keyword table while it is built *)

(** [{"emoji": .., "is_base": .., "rank": ..}] *)
Record suggestion := {
  emoji : str;
  is_base : bool;
  rank : option Z;
}.

#[export] Instance suggestion_eq_dec : EqDecision suggestion.
Proof. solve_decision. Defined.

(** The lists of suggestions are mutable objects and the plural linkage
    makes two keys share one: [keyword_dict] maps a keyword to the address
    of its list in [heap]. *)
Record tables := {
  keyword_dict : list (str * nat);
  heap : list (list suggestion);
}.

Definition empty_tables : tables := {| keyword_dict := []; heap := [] |}.

(** The list at an address. *)
Definition deref (h : list (list suggestion)) (r : nat) : list suggestion :=
  default [] (h !! r).

(** The table as a value: every key with the contents of its list. *)
Definition view (t : tables) : list (str * list suggestion) :=
  (λ kr, (kr.1, deref (heap t) kr.2)) <$> keyword_dict t.

(** [keyword_dict.setdefault(k, []).append(x)] *)
Definition setdefault_append (k : str) (x : suggestion) (t : tables) : tables :=
  match dget (keyword_dict t) k with
  | Some r =>
      {| keyword_dict := keyword_dict t;
         heap := alter (λ l, l ++ [x]) r (heap t) |}
  | None =>
      {| keyword_dict := dset (keyword_dict t) k (length (heap t));
         heap := heap t ++ [[x]] |}
  end.

(** ** The sort of one list *)

(** The sort key: an [int], or [float("inf")]. *)
Inductive sort_key :=
| Fin (r : Z)
| Inf.

(** [lambda suggestion: float("inf") if suggestion["rank"] is None
    else suggestion["rank"]] *)
Definition key (s : suggestion) : sort_key :=
  match rank s with
  | None => Inf
  | Some r => Fin r
  end.

(** [a < b] on sort keys. *)
Definition key_ltb (a b : sort_key) : bool :=
  match a, b with
  | Fin x, Fin y => x <? y
  | Fin _, Inf => true
  | Inf, _ => false
  end.

(** [list.sort] is stable, and a stable sort has one result
    ([stable_sort_unique] below); insertion from the right computes it. *)
Fixpoint insert_by_key (x : suggestion) (l : list suggestion) : list suggestion :=
  match l with
  | [] => [x]
  | y :: l' =>
      if key_ltb (key y) (key x) then y :: insert_by_key x l'
      else x :: y :: l'
  end.

Fixpoint sort_by_key (l : list suggestion) : list suggestion :=
  match l with
  | [] => []
  | x :: l' => insert_by_key x (sort_by_key l')
  end.

(** The body of the loop over [keyword_dict.values()], on the contents of
    one list. *)
Definition sort_and_cap (emojis_per_keyword : option Z)
    (emojis : list suggestion) : list suggestion :=
  let emojis := sort_by_key emojis in
  match emojis_per_keyword with
  | Some k =>
      if negb (k =? 0) && (k <? Z.of_nat (length emojis))
      then slice_to k emojis
      else emojis
  | None => emojis
  end.

(** ** What is returned and printed *)

(** An entry of the returned table: a suggestion as it is, or reduced to
    [{"emoji": ..}]. *)
Inductive entry :=
| Full (s : suggestion)
| EmojiOnly (e : str).

Definition entry_emoji (x : entry) : str :=
  match x with
  | Full s => emoji s
  | EmojiOnly e => e
  end.

Definition shape (export_base_rank : bool) (s : suggestion) : entry :=
  if export_base_rank then Full s else EmojiOnly (emoji s).

(** What a run shows on the terminal: a progress bar per CLDR file and the
    number of keywords. *)
Inductive event :=
| ProgressBar (cldr_file_key : str) (characters : nat)
| PrintTotal (total_keywords : nat).

(** ** The function *)

Section gen_emoji_lexicon.
Context `{Platform}.

(** [k.lower()] *)
Definition item_lower (k : pyitem) : result str :=
  match k with
  | ItemStr s => Ok (str_lower s)
  | _ => Raise AttributeError
  end.

(** The [isinstance] cascade and
    [[k.lower() for k in keywords_to_ignore]]. *)
Definition keywords_to_ignore (ignore_keywords : pyobj) : result (list str) :=
  let keywords_to_ignore :=
    match ignore_keywords with
    | PStr s => [ItemStr s]
    | PList items => items
    | _ => []
    end in
  mapM item_lower keywords_to_ignore.

(** The loop over the rows of the ranking. *)
Definition popularity_dict (rows : list (str * Z)) : list (str * Z) :=
  foldl (λ d row, dset d row.1 row.2) [] rows.

(** [num_emojis and (emoji_rank is None or emoji_rank > num_emojis)] *)
Definition over_limit (num_emojis emoji_rank : option Z) : bool :=
  match num_emojis with
  | Some n =>
      negb (n =? 0) &&
      match emoji_rank with None => true | Some r => n <? r end
  | None => false
  end.

(** The body of the loop over [emoji_annotations["default"]]. *)
Definition add_keyword (ignore : list str) (cldr_char : str)
    (has_modifier_base : bool) (emoji_rank : option Z)
    (t : tables) (emoji_keyword : str) : tables :=
  let emoji_keyword := str_lower emoji_keyword in
  if (length (split isspace emoji_keyword) =? 1)%nat
     && bool_decide (emoji_keyword ∉ ignore)
  then
    setdefault_append emoji_keyword
      {| emoji := cldr_char; is_base := has_modifier_base;
         rank := emoji_rank |} t
  else t.

(** The body of the loop over the characters of one CLDR file. *)
Definition process_char (a : args) (ignore : list str)
    (popularity : list (str * Z)) (cldr_dict : list (str * annotation))
    (t : tables) (cldr_char : str) : result tables :=
  match EMOJI_DATA cldr_char with
  | None => Ok t
  | Some status =>
      code ← encode_utf8 cldr_char;
      if bool_decide (code ∈ emoji_codes_to_ignore) then Ok t
      else
        let emoji_rank := dget popularity cldr_char in
        if over_limit (num_emojis a) emoji_rank then Ok t
        else
          let has_modifier_base :=
            hasBinaryProperty_EMOJI_MODIFIER_BASE cldr_char in
          if has_modifier_base && (1 <? length cldr_char)%nat then Ok t
          else if bool_decide (status = fully_qualified) then
            emoji_annotations ← getitem cldr_dict cldr_char;
            match a_default emoji_annotations with
            | None => Raise (KeyError (lit "default"))
            | Some keywords =>
                Ok (foldl (add_keyword ignore cldr_char has_modifier_base
                             emoji_rank) t keywords)
            end
          else Ok t
  end.

(** One round of the loop over [cldr_file_paths]. *)
Definition process_file (a : args) (ignore : list str)
    (popularity : list (str * Z)) (cldr_dict : list (str * annotation))
    (t : tables) : result tables :=
  for_each (process_char a ignore popularity cldr_dict) (dkeys cldr_dict) t.

(** The dictionary comprehension over [noun_data]: the condition is
    evaluated first, then the key and the value. *)
Definition plurals_to_singulars_dict (noun_data : list (str * noun))
  : result (list (str * str)) :=
  for_each (λ d row,
      n ← getitem noun_data row;
      match plural n with
      | None => Raise (KeyError (lit "plural"))
      | Some p =>
          if bool_decide (p ≠ lit "isPlural")
          then Ok (dset d (str_lower p) (str_lower row))
          else Ok d
      end)
    (dkeys noun_data) [].

(** The body of the loop over [plurals_to_singulars_dict.items()]:
    the plural gets the list object of the singular. *)
Definition link_plural (kd : list (str * nat)) (item : str * str)
  : list (str * nat) :=
  let '(plural, singular) := item in
  if negb (dmem kd plural) && dmem kd singular then
    match dget kd singular with
    | Some r => dset kd plural r
    | None => kd
    end
  else kd.

(** The table after both CLDR files. *)
Definition scanned (a : args) (f : files) : result tables :=
  ignore ← keywords_to_ignore (ignore_keywords a);
  let popularity := popularity_dict (ranked_tsv f) in
  t ← process_file a ignore popularity (annotations f) empty_tables;
  process_file a ignore popularity (annotationsDerived f) t.

(** The table after the plural linkage. *)
Definition linked (a : args) (f : files) : result tables :=
  t ← scanned a f;
  plurals ← plurals_to_singulars_dict (nouns_json f);
  Ok {| keyword_dict := foldl link_plural (keyword_dict t) plurals;
        heap := heap t |}.

(** The loop over [keyword_dict.values()]: each visit sorts and cuts the
    list object in place, once per key that holds it. *)
Definition sort_lists (emojis_per_keyword : option Z) (t : tables) : tables :=
  {| keyword_dict := keyword_dict t;
     heap := foldl (λ h r, alter (sort_and_cap emojis_per_keyword) r h)
               (heap t) (dvalues (keyword_dict t)) |}.

(** The table after the sort. *)
Definition ranked (a : args) (f : files) : result tables :=
  t ← linked a f;
  Ok (sort_lists (emojis_per_keyword a) t).

(** What the run prints. *)
Definition printed (a : args) (f : files) (t : tables) : list event :=
  if verbose a then
    [ProgressBar (lit "annotations") (length (annotations f));
     ProgressBar (lit "annotationsDerived") (length (annotationsDerived f));
     PrintTotal (length (keyword_dict t))]
  else [].

(** The table that is returned: with [export_base_rank] the dictionary
    as it is, without it the comprehension that keeps only the emoji. *)
Definition shaped (export_base_rank : bool)
    (v : list (str * list suggestion)) : list (str * list entry) :=
  (λ kv : str * list suggestion,
     (kv.1, shape export_base_rank <$> kv.2)) <$> v.

(** The whole run: the returned table and what was printed. *)
Definition run (a : args) (f : files)
  : result (list (str * list entry) * list event) :=
  t ← ranked a f;
  Ok (shaped (export_base_rank a) (view t), printed a f t).

(** The returned table. *)
Definition gen_emoji_lexicon (a : args) (f : files)
  : result (list (str * list entry)) :=
  fst <$> run a f.
End gen_emoji_lexicon.

(** ** The vocabulary of the properties *)

(** [a <= b] on sort keys: not [b < a]. *)
Definition key_le (a b : sort_key) : Prop := key_ltb b a = false.

#[export] Instance sort_key_eq_dec : EqDecision sort_key.
Proof. solve_decision. Defined.

(** A list of suggestions in non-decreasing rank, the absent rank last. *)
Definition by_rank (l : list suggestion) : Prop :=
  StronglySorted (λ x y, key_le (key x) (key y)) l.

(** The suggestions of one sort key, in the order of the list. *)
Definition of_key (κ : sort_key) (l : list suggestion) : list suggestion :=
  filter (λ x, key x = κ) l.

(** [l'] is [l] sorted by a stable sort. *)
Definition stable_sort_of (l l' : list suggestion) : Prop :=
  by_rank l' ∧ ∀ κ, of_key κ l' = of_key κ l.

(** Setting one parameter. *)
Definition with_verbose (b : bool) (a : args) : args :=
  {| num_emojis := num_emojis a; emojis_per_keyword := emojis_per_keyword a;
     ignore_keywords := ignore_keywords a;
     export_base_rank := export_base_rank a; verbose := b |}.

Definition with_num_emojis (n : option Z) (a : args) : args :=
  {| num_emojis := n; emojis_per_keyword := emojis_per_keyword a;
     ignore_keywords := ignore_keywords a;
     export_base_rank := export_base_rank a; verbose := verbose a |}.

Definition with_emojis_per_keyword (k : option Z) (a : args) : args :=
  {| num_emojis := num_emojis a; emojis_per_keyword := k;
     ignore_keywords := ignore_keywords a;
     export_base_rank := export_base_rank a; verbose := verbose a |}.

Definition with_ignore_keywords (o : pyobj) (a : args) : args :=
  {| num_emojis := num_emojis a; emojis_per_keyword := emojis_per_keyword a;
     ignore_keywords := o;
     export_base_rank := export_base_rank a; verbose := verbose a |}.

(** *** The table as the list of what the scan contributes

    A run of the scan contributes pairs of a keyword and a suggestion, in
    the order of the files, of their characters and of their phrases; the
    table groups them by keyword. *)

(** Adding one pair to a table of lists. *)
Definition group_add (v : list (str * list suggestion))
    (e : str * suggestion) : list (str * list suggestion) :=
  dset v e.1 (default [] (dget v e.1) ++ [e.2]).

Definition add_all (v : list (str * list suggestion))
    (es : list (str * suggestion)) : list (str * list suggestion) :=
  foldl group_add v es.

(** The suggestions contributed under one keyword, in order. *)
Definition collect (k : str) (es : list (str * suggestion)) : list suggestion :=
  (filter (λ e, e.1 = k) es).*2.

(** A table has each key once and every address allocated; until the
    plural linkage no two keys hold the same address. *)
Definition valid (t : tables) : Prop :=
  NoDup (dkeys (keyword_dict t)) ∧
  Forall (λ r, (r < length (heap t))%nat) (dvalues (keyword_dict t)).

Definition unshared (t : tables) : Prop :=
  valid t ∧ NoDup (dvalues (keyword_dict t)).

(** A suggestion carries the rank of its emoji. *)
Definition ranked_by (popularity : list (str * Z)) (s : suggestion) : Prop :=
  rank s = dget popularity (emoji s).

(** How often the sort loop visits an address. *)
Definition visits (r : nat) (rs : list nat) : nat :=
  length (filter (λ r', r' = r) rs).

Section vocabulary.
Context `{Platform}.

(** The rank filter in the words of the specification: with a limit
    set, the rank exists and is at most the limit. *)
Definition within_limit (num_emojis emoji_rank : option Z) : bool :=
  match num_emojis with
  | None => true
  | Some n =>
      if n =? 0 then true
      else match emoji_rank with Some r => r <=? n | None => false end
  end.

(** The filters a character has to pass, in the words of the
    specification. *)
Definition passes_all_filters (a : args) (popularity : list (str * Z))
    (c : str) : bool :=
  bool_decide (is_Some (EMOJI_DATA c))
  && match encode_utf8 c with
     | Ok code => bool_decide (code ∉ emoji_codes_to_ignore)
     | Raise _ => false
     end
  && within_limit (num_emojis a) (dget popularity c)
  && negb (hasBinaryProperty_EMOJI_MODIFIER_BASE c && (1 <? length c)%nat)
  && bool_decide (EMOJI_DATA c = Some fully_qualified).

(** A phrase of one word: [len(s.split()) == 1]. *)
Definition single_word (s : str) : bool :=
  (length (split isspace s) =? 1)%nat.

(** The keywords a list of phrases gives. *)
Definition keywords_of (ignore : list str) (phrases : list str) : list str :=
  filter (λ kw, single_word kw = true ∧ kw ∉ ignore) (str_lower <$> phrases).

(** The phrases of a character in a CLDR file. *)
Definition phrases_of (cldr_dict : list (str * annotation)) (c : str)
  : list str :=
  match dget cldr_dict c with
  | Some ann => default [] (a_default ann)
  | None => []
  end.

(** The suggestion made for a character. *)
Definition suggest (popularity : list (str * Z)) (c : str) : suggestion :=
  {| emoji := c; is_base := hasBinaryProperty_EMOJI_MODIFIER_BASE c;
     rank := dget popularity c |}.

(** What one character and what one file contribute. *)
Definition char_entries (a : args) (ignore : list str)
    (popularity : list (str * Z)) (cldr_dict : list (str * annotation))
    (c : str) : list (str * suggestion) :=
  if passes_all_filters a popularity c
  then (λ kw, (kw, suggest popularity c)) <$>
         keywords_of ignore (phrases_of cldr_dict c)
  else [].

Definition file_entries (a : args) (ignore : list str)
    (popularity : list (str * Z)) (cldr_dict : list (str * annotation))
  : list (str * suggestion) :=
  dkeys cldr_dict ≫= char_entries a ignore popularity cldr_dict.

(** What the two files contribute, in the order of the scan. *)
Definition scan_entries (a : args) (f : files) (ignore : list str)
  : list (str * suggestion) :=
  let popularity := popularity_dict (ranked_tsv f) in
  file_entries a ignore popularity (annotations f) ++
  file_entries a ignore popularity (annotationsDerived f).

(** The lists of the table as the sort loop finds them. *)
Definition lists_before_sort (a : args) (f : files)
  : result (list (str * list suggestion)) :=
  view <$> linked a f.

(** What the list at address [r] of the linked table [t] is when the
    run returns: sorted and cut once per key that holds it. *)
Definition final_list (a : args) (t : tables) (r : nat) : list entry :=
  shape (export_base_rank a) <$>
    Nat.iter (visits r (dvalues (keyword_dict t)))
      (sort_and_cap (emojis_per_keyword a)) (deref (heap t) r).

(** The sort key of a returned entry: that of the rank of its emoji. *)
Definition entry_key (popularity : list (str * Z)) (x : entry) : sort_key :=
  match dget popularity (entry_emoji x) with
  | None => Inf
  | Some r => Fin r
  end.
End vocabulary.

(** ** A small platform and small files, to run the function on *)

Module Sample.
(** [str.lower] on Basic Latin. *)
Definition lower_char (c : N) : N :=
  if (65 <=? c)%N && (c <=? 90)%N then (c + 32)%N else c.

(** The code points Python counts as whitespace. *)
Definition whitespace (c : N) : bool :=
  bool_decide (c ∈ [9; 10; 11; 12; 13; 28; 29; 30; 31; 32; 133; 160;
    5760; 8192; 8193; 8194; 8195; 8196; 8197; 8198; 8199; 8200; 8201;
    8202; 8232; 8233; 8239; 8287; 12288]%N).

Definition grinning : str := [128512%N].        (* U+1F600 *)
Definition grinning_cat : str := [128570%N].    (* U+1F63A *)
Definition cat_face : str := [128049%N].        (* U+1F431 *)
Definition thumbs_up : str := [128077%N].       (* U+1F44D *)
Definition thumbs_up_light : str := [128077%N; 127995%N].
Definition smiling : str := [9786%N; 65039%N]. (* U+263A U+FE0F *)
Definition smiling_text : str := [9786%N].
Definition chequered_flag : str := [127937%N].  (* U+1F3C1 *)

Definition emoji_data : list (str * emoji_status) :=
  [(grinning, fully_qualified); (grinning_cat, fully_qualified);
   (cat_face, fully_qualified); (thumbs_up, fully_qualified);
   (thumbs_up_light, fully_qualified); (smiling, fully_qualified);
   (smiling_text, unqualified); (chequered_flag, fully_qualified)].

#[export] Instance platform : Platform := {|
  str_lower := List.map lower_char;
  isspace := whitespace;
  EMOJI_DATA := dget emoji_data;
  hasBinaryProperty_EMOJI_MODIFIER_BASE c :=
    match c with
    | c0 :: _ => bool_decide (c0 = 128077%N)
    | [] => false
    end;
  emoji_codes_to_ignore := [[Byte.xf0; Byte.x9f; Byte.x8f; Byte.x81]];
|}.

Definition words (l : list str) : annotation :=
  {| a_default := Some l; a_tts := None |}.

Definition defaults : args :=
  {| num_emojis := None; emojis_per_keyword := None;
     ignore_keywords := PNone; export_base_rank := false;
     verbose := true |}.

Definition with_ranks : args :=
  {| num_emojis := None; emojis_per_keyword := None;
     ignore_keywords := PNone; export_base_rank := true;
     verbose := true |}.

Definition one_noun (p : string) : noun := {| plural := Some (lit p) |}.

(** Eight annotated characters, of which the light thumbs up (a modifier
    base of two code points), the text smiley (unqualified) and the
    chequered flag (an ignored code) are filtered out; the smiley has no
    rank.  The noun [Faces] makes a chain of plurals. *)
Definition zoo : files :=
  {| ranked_tsv :=
       [(grinning, 1); (grinning_cat, 50); (cat_face, 20); (thumbs_up, 3)];
     annotations :=
       [(smiling, words [lit "happy"; lit "face"]);
        (grinning_cat, words [lit "cat"; lit "happy"; lit "Run"]);
        (grinning, words [lit "grinning face"; lit "happy"; lit "Face"]);
        (cat_face, words [lit "cat"; lit "face"; lit "pet"]);
        (thumbs_up, words [lit "+1"; lit "good"; lit "run"]);
        (thumbs_up_light, words [lit "good"]);
        (smiling_text, words [lit "happy"]);
        (chequered_flag, words [lit "flag"])];
     annotationsDerived :=
       [(smiling, words [lit "relaxed"]);
        (cat_face, words [lit "Cat"; lit "whiskers and cat"])];
     nouns_json :=
       [(lit "Cat", one_noun "Cats"); (lit "Plural", one_noun "isPlural");
        (lit "Face", one_noun "Faces"); (lit "Dog", one_noun "Dogs");
        (lit "Faces", one_noun "Facets")] |}.

(** The example of the specification: one annotated character. *)
Definition happy : files :=
  {| ranked_tsv := [(grinning, 1); (grinning_cat, 50)];
     annotations := [(grinning, words [lit "grinning face"; lit "happy"])];
     annotationsDerived := []; nouns_json := [] |}.

(** Two cats, and the noun [Cat] with the plural [Cats]. *)
Definition cats : files :=
  {| ranked_tsv := [(cat_face, 20); (grinning_cat, 50)];
     annotations :=
       [(cat_face, words [lit "cat"]);
        (grinning_cat, words [lit "CAT"; lit "Cats"])];
     annotationsDerived := [];
     nouns_json := [(lit "Cat", one_noun "Cats")] |}.

(** What the runs on [zoo] return. *)
Definition table_of (r : result (list (str * list entry)))
  : list (str * list entry) :=
  match r with Ok out => out | Raise _ => [] end.

Definition tables_of (r : result tables) : tables :=
  match r with Ok t => t | Raise _ => empty_tables end.

Definition zoo_ranked : list (str * list entry) :=
  Eval vm_compute in table_of (gen_emoji_lexicon with_ranks zoo).

Definition zoo_top2 : list (str * list entry) :=
  Eval vm_compute in
    table_of (gen_emoji_lexicon
                (with_emojis_per_keyword (Some 2) with_ranks) zoo).

Definition zoo_first20 : list (str * list entry) :=
  Eval vm_compute in
    table_of (gen_emoji_lexicon (with_num_emojis (Some 20) with_ranks) zoo).

Definition zoo_scanned : tables :=
  Eval vm_compute in tables_of (scanned defaults zoo).

Definition zoo_linked : tables :=
  Eval vm_compute in tables_of (linked defaults zoo).

Definition entry_of (c : str) (r : option Z) : entry :=
  Full {| emoji := c; is_base := false; rank := r |}.
End Sample.


(** ** When a run raises

    The exceptions of a run, in the order the function meets them: the
    [ignore_keywords] list, the characters of the two CLDR files, the
    rows of the noun data. *)

(** The code points that have a UTF-8 encoding. *)
Definition scalar_value (c : N) : Prop :=
  ((c < 55296)%N ∨ (57343 < c)%N) ∧ (c < 1114112)%N.

Definition is_str (k : pyitem) : bool :=
  match k with ItemStr _ => true | _ => false end.

(** The strings of an [ignore_keywords] argument. *)
Definition strings_of (o : pyobj) : list str :=
  match o with
  | PStr s => [s]
  | PList items =>
      omap (λ k, match k with ItemStr s => Some s | _ => None end) items
  | _ => []
  end.

Definition ignore_error (o : pyobj) : option exn :=
  match o with
  | PList items => if forallb is_str items then None else Some AttributeError
  | _ => None
  end.

(** The first exception among the elements of a loop. *)
Definition first_error {A} (err : A → option exn) (xs : list A) : option exn :=
  head (omap err xs).

Definition or_else (e1 e2 : option exn) : option exn :=
  match e1 with Some e => Some e | None => e2 end.

Section run_error.
Context `{Platform}.

(** The exception at a character of a CLDR file: a character that passes
    the filters needs its [default] list, one in the emoji data needs an
    encoding. *)
Definition char_error (a : args) (popularity : list (str * Z))
    (cldr_dict : list (str * annotation)) (c : str) : option exn :=
  if passes_all_filters a popularity c then
    match dget cldr_dict c with
    | None => Some (KeyError c)
    | Some ann =>
        match a_default ann with
        | None => Some (KeyError (lit "default"))
        | Some _ => None
        end
    end
  else
    match EMOJI_DATA c with
    | None => None
    | Some _ =>
        match encode_utf8 c with Raise e => Some e | Ok _ => None end
    end.

(** The exception at a row of the noun data. *)
Definition noun_error (noun_data : list (str * noun)) (row : str)
  : option exn :=
  match dget noun_data row with
  | None => Some (KeyError row)
  | Some n =>
      match plural n with
      | None => Some (KeyError (lit "plural"))
      | Some _ => None
      end
  end.

Definition run_error (a : args) (f : files) : option exn :=
  let popularity := popularity_dict (ranked_tsv f) in
  or_else (ignore_error (ignore_keywords a))
    (or_else (first_error (char_error a popularity (annotations f))
                (dkeys (annotations f)))
       (or_else (first_error (char_error a popularity (annotationsDerived f))
                   (dkeys (annotationsDerived f)))
          (first_error (noun_error (nouns_json f)) (dkeys (nouns_json f))))).

(** The pairs the comprehension over the noun data makes, row by row. *)
Definition noun_pairs (noun_data : list (str * noun)) : list (str * str) :=
  omap (λ row,
      n ← dget noun_data row;
      p ← plural n;
      if bool_decide (p ≠ lit "isPlural")
      then Some (str_lower p, str_lower row) else None)
    (dkeys noun_data).
End run_error.

(** The keys of a list of pairs in the order they first occur. *)
Definition first_occurrences (ks : list str) : list str :=
  reverse (remove_dups (reverse ks)).

Definition with_export_base_rank (b : bool) (a : args) : args :=
  {| num_emojis := num_emojis a; emojis_per_keyword := emojis_per_keyword a;
     ignore_keywords := ignore_keywords a;
     export_base_rank := b; verbose := verbose a |}.

(** An entry reduced to its emoji, and a table with every entry
    reduced. *)
Definition emoji_only (x : entry) : entry := EmojiOnly (entry_emoji x).

Definition reduced (out : list (str * list entry)) : list (str * list entry) :=
  (λ kv : str * list entry, (kv.1, emoji_only <$> kv.2)) <$> out.


(** ** The update of the local files

    With [update_local_data] the function writes the table to
    [emoji_keywords.json], rewrites the row of the language in
    [data_table.txt] and sets the count of the language in
    [total_data.json].  The files are their contents: the table written,
    the lines of the data table, the counts per language and field. *)

(** [s.split(sep)] for a separator of one character. [field] is the field
    being read. *)
Fixpoint split_on_from (sep : N) (field : str) (s : str) : list str :=
  match s with
  | [] => [field]
  | c :: s' =>
      if decide (c = sep) then field :: split_on_from sep [] s'
      else split_on_from sep (field ++ [c]) s'
  end.

Definition split_on (sep : N) (s : str) : list str := split_on_from sep [] s.

(** [sep.join(fields)] *)
Fixpoint join (sep : str) (fields : list str) : str :=
  match fields with
  | [] => []
  | x :: rest =>
      match rest with
      | [] => x
      | _ => x ++ sep ++ join sep rest
      end
  end.

(** [s.rjust(width, fill)] *)
Definition rjust (width : nat) (fill : N) (s : str) : str :=
  replicate (width - length s) fill ++ s.

(** The characters [|], space and newline. *)
Definition pipe : N := 124.
Definition space : N := 32.
Definition newline : N := 10.

(** The exceptions of the update: those of the run and [IndexError]. *)
Inductive update_exn :=
| IndexError
| Exn (e : exn).

Record local_files := {
  (** [emoji_keywords.json], once written *)
  emoji_keywords_json : option (list (str * list entry));
  (** the lines of [data_table.txt] *)
  data_table_txt : list str;
  (** [total_data.json]: language, field, count *)
  total_data_json : list (str * list (str * Z));
}.

Section update_local_data.
Context `{Platform}.
(** [language.capitalize()] and [add_num_commas], which are not in this
    file. *)
Variable capitalize : str → str.
Variable add_num_commas : nat → str.

(** [s.strip()] *)
Fixpoint lstrip (s : str) : str :=
  match s with
  | [] => []
  | c :: s' => if isspace c then lstrip s' else s
  end.

Definition strip (s : str) : str := reverse (lstrip (reverse (lstrip s))).

(** The body of the loop over the lines of the data table; [None] is the
    [IndexError] of [line.split("|")[1]]. *)
Definition rewrite_line (language total_keywords line : str) : option str :=
  column ← split_on pipe line !! 1%nat;
  if bool_decide (strip column = capitalize language) then
    Some (join [pipe] (slice_to (-2) (split_on pipe line)) ++ [pipe] ++
          rjust (length (lit " Emoji Keywords") - 1) space total_keywords ++
          [space; pipe; newline])
  else Some line.

(** The loop over [fileinput.input(path_to_data_table, inplace=True)]. *)
Definition rewrite_data_table (language total_keywords : str)
    (lines : list str) : option (list str) :=
  mapM (rewrite_line language total_keywords) lines.

(** [current_data[language.capitalize()]["emoji_keywords"] = n] *)
Definition update_total_data (language : str) (n : nat)
    (current_data : list (str * list (str * Z)))
  : result (list (str * list (str * Z))) :=
  counts ← getitem current_data (capitalize language);
  Ok (dset current_data (capitalize language)
        (dset counts (lit "emoji_keywords") (Z.of_nat n))).

(** The block under [if update_local_data]. *)
Definition update_local_files (language : str)
    (keyword_dict : list (str * list entry)) (fs : local_files)
  : local_files + update_exn :=
  let total_keywords := add_num_commas (length keyword_dict) in
  match rewrite_data_table language total_keywords (data_table_txt fs) with
  | None => inr IndexError
  | Some lines =>
      match update_total_data language (length keyword_dict)
              (total_data_json fs) with
      | Raise e => inr (Exn e)
      | Ok current_data =>
          inl {| emoji_keywords_json := Some keyword_dict;
                 data_table_txt := lines;
                 total_data_json := current_data |}
      end
  end.

(** The function with its parameter [update_local_data]: what it returns
    and the files it leaves. *)
Definition gen_emoji_lexicon_files (a : args) (update_local_data : bool)
    (language : str) (f : files) (fs : local_files)
  : (list (str * list entry) * local_files) + update_exn :=
  match gen_emoji_lexicon a f with
  | Raise e => inr (Exn e)
  | Ok keyword_dict =>
      if update_local_data then
        match update_local_files language keyword_dict fs with
        | inl fs' => inl (keyword_dict, fs')
        | inr e => inr e
        end
      else inl (keyword_dict, fs)
  end.
End update_local_data.

Module SampleFiles.
Import Sample.

(** [str.capitalize] on Basic Latin. *)
Definition upper_char (c : N) : N :=
  if (97 <=? c)%N && (c <=? 122)%N then (c - 32)%N else c.

Definition capitalize (s : str) : str :=
  match s with
  | [] => []
  | c :: s' => upper_char c :: List.map lower_char s'
  end.

(** The decimal digits of a number, and the digits with a comma every
    three from the right. *)
Fixpoint digits (fuel : nat) (n : N) (acc : str) : str :=
  match fuel with
  | O => acc
  | S fuel' =>
      let acc' := (48 + n mod 10)%N :: acc in
      if (n / 10 =? 0)%N then acc' else digits fuel' (n / 10) acc'
  end.

Fixpoint commas (reversed : str) : str :=
  match reversed with
  | a :: b :: c :: ((_ :: _) as rest) => a :: b :: c :: 44%N :: commas rest
  | _ => reversed
  end.

Definition add_num_commas (num : nat) : str :=
  reverse (commas (reverse (digits (S num) (N.of_nat num) []))).

(** A data table of a header, a rule and two rows, and the counts of two
    languages. *)
Definition table_lines : list str :=
  [lit "| Languages | Nouns | Emoji Keywords |" ++ [newline];
   lit "| English | 1,234 |          2,300 |" ++ [newline];
   lit "| German | 27,000 |          2,898 |" ++ [newline]].

Definition local : local_files :=
  {| emoji_keywords_json := None;
     data_table_txt := table_lines;
     total_data_json :=
       [(lit "English", [(lit "nouns", 1234); (lit "emoji_keywords", 2300)]);
        (lit "German", [(lit "nouns", 27000)])] |}.
End SampleFiles.

(** * Properties *)

(** ** Dictionaries *)

Section dict_facts.
Context {V : Type}.
Implicit Types (d : list (str * V)) (k : str) (v : V).

Lemma dget_dset_eq d k v : dget (dset d k v) k = Some v.
Proof.
  induction d as [|[k' v'] d IH]; simpl.
  - by rewrite decide_True.
  - destruct (decide (k' = k)) as [->|Hne]; simpl.
    + by rewrite decide_True.
    + by rewrite decide_False.
Qed.

Lemma dget_dset_ne d k k' v : k ≠ k' → dget (dset d k v) k' = dget d k'.
Proof.
  intros Hne. induction d as [|[k0 v0] d IH]; simpl.
  - by rewrite decide_False.
  - destruct (decide (k0 = k)) as [->|Hne0]; simpl.
    + by rewrite !decide_False.
    + by rewrite IH.
Qed.

Lemma dget_dset d k k' v :
  dget (dset d k v) k' = if decide (k = k') then Some v else dget d k'.
Proof.
  case_decide; [subst; apply dget_dset_eq | by apply dget_dset_ne].
Qed.

Lemma dget_None d k : dget d k = None ↔ k ∉ dkeys d.
Proof.
  unfold dkeys. induction d as [|[k' v'] d IH]; simpl.
  - split; [intros _; apply not_elem_of_nil | done].
  - rewrite not_elem_of_cons, <-IH. case_decide.
    + split; [done | by intros [? _]].
    + split; [by intros ?; split; [congruence|] | by intros [_ ?]].
Qed.

Lemma dget_Some_elem d k v : dget d k = Some v → (k, v) ∈ d.
Proof.
  induction d as [|[k' v'] d IH]; simpl; [done|].
  case_decide; intros ?; simplify_eq; [left | right; auto].
Qed.

Lemma dget_elem_NoDup d k v :
  NoDup (dkeys d) → (k, v) ∈ d → dget d k = Some v.
Proof.
  unfold dkeys. induction d as [|[k' v'] d IH]; simpl.
  - by intros _ ?%elem_of_nil.
  - intros [Hk Hd]%NoDup_cons [?|Hin]%elem_of_cons; simplify_eq.
    + by rewrite decide_True.
    + rewrite decide_False; [auto|].
      intros ->. apply Hk. apply list_elem_of_fmap. by exists (k, v).
Qed.

Lemma dmem_true d k : dmem d k = true ↔ is_Some (dget d k).
Proof.
  unfold dmem. destruct (dget d k); split; done.
Qed.

Lemma dmem_false d k : dmem d k = false ↔ dget d k = None.
Proof. unfold dmem. by destruct (dget d k). Qed.

(** A new key goes to the end. *)
Lemma dset_new d k v : dget d k = None → dset d k v = d ++ [(k, v)].
Proof.
  induction d as [|[k' v'] d IH]; simpl; [done|].
  case_decide; [done|]. intros ?. by rewrite IH.
Qed.

Lemma dkeys_dset_old d k v : is_Some (dget d k) → dkeys (dset d k v) = dkeys d.
Proof.
  unfold dkeys. induction d as [|[k' v'] d IH]; simpl.
  - by intros [? ?].
  - case_decide; simpl; [done|]. intros ?. f_equal. auto.
Qed.

Lemma dkeys_dset d k v :
  dkeys (dset d k v) = if dmem d k then dkeys d else dkeys d ++ [k].
Proof.
  destruct (dmem d k) eqn:Hm.
  - by apply dkeys_dset_old, dmem_true.
  - apply dmem_false in Hm. rewrite dset_new by done.
    unfold dkeys. by rewrite fmap_app.
Qed.

Lemma dset_NoDup d k v : NoDup (dkeys d) → NoDup (dkeys (dset d k v)).
Proof.
  intros Hd. rewrite dkeys_dset. destruct (dmem d k) eqn:Hm; [done|].
  apply dmem_false, dget_None in Hm.
  apply NoDup_app. split_and!; [done| |apply NoDup_singleton].
  intros x Hx ->%list_elem_of_singleton. done.
Qed.

Lemma dvalues_dset_elem d k v x :
  x ∈ dvalues (dset d k v) → x = v ∨ x ∈ dvalues d.
Proof.
  unfold dvalues. induction d as [|[k' v'] d IH]; simpl.
  - intros ?%list_elem_of_singleton. by left.
  - case_decide; simpl; rewrite !elem_of_cons.
    + intros [->|?]; [by left | by right; right].
    + intros [->|[->|?]%IH]; [by right; left | by left | by right; right].
Qed.
Lemma dget_app_l d d' k v :
  dget d k = Some v → dget (d ++ d') k = Some v.
Proof.
  induction d as [|[k' v'] d IH]; simpl; [done|].
  destruct (decide (k' = k)); [done | apply IH].
Qed.

Lemma dget_snoc d k v k' :
  dget (d ++ [(k, v)]) k' =
    match dget d k' with
    | Some v' => Some v'
    | None => if decide (k = k') then Some v else None
    end.
Proof.
  induction d as [|[k0 v0] d IH]; simpl; [done|].
  destruct (decide (k0 = k')); [done | apply IH].
Qed.
End dict_facts.

Lemma dget_fmap {V W} (g : V → W) (d : list (str * V)) k :
  dget ((λ kv, (kv.1, g kv.2)) <$> d) k = g <$> dget d k.
Proof.
  induction d as [|[k' v'] d IH]; simpl; [done|]. by case_decide.
Qed.

Lemma dkeys_fmap {V W} (g : V → W) (d : list (str * V)) :
  dkeys ((λ kv, (kv.1, g kv.2)) <$> d) = dkeys d.
Proof. unfold dkeys. rewrite <-list_fmap_compose. done. Qed.

(** ** [str.split] *)

Section split_facts.
Variable isspace : N → bool.
Implicit Types (word s pre w post rest : str).

Local Abbreviation blank := (Forall (λ c, isspace c = true)).
Local Abbreviation solid := (Forall (λ c, isspace c = false)).

Lemma split_from_blank word s :
  blank s →
  split_from isspace word s = match word with [] => [] | _ => [word] end.
Proof.
  intros Hs. revert word.
  induction Hs as [|c s Hc Hs IH]; intros word; simpl; [done|].
  rewrite Hc, (IH []). by destruct word.
Qed.

Lemma split_from_skip pre rest :
  blank pre → split_from isspace [] (pre ++ rest) = split_from isspace [] rest.
Proof. induction 1 as [|c s Hc Hs IH]; simpl; [done|]. by rewrite Hc. Qed.

Lemma split_from_solid word w rest :
  solid w →
  split_from isspace word (w ++ rest) = split_from isspace (word ++ w) rest.
Proof.
  intros Hw. revert word. induction Hw as [|c w Hc Hw IH]; intros word; simpl.
  - by rewrite app_nil_r.
  - by rewrite Hc, IH, <-app_assoc.
Qed.

Lemma split_from_nonempty word s : word ≠ [] → split_from isspace word s ≠ [].
Proof.
  revert word. induction s as [|c s IH]; intros word Hw; simpl.
  - by destruct word.
  - destruct (isspace c); [by destruct word|].
    apply IH. by destruct word.
Qed.

Lemma split_from_nil_blank s : split_from isspace [] s = [] → blank s.
Proof.
  induction s as [|c s IH]; simpl; [by constructor|].
  destruct (isspace c) eqn:Hc.
  - intros Hs. constructor; auto.
  - intros Hs. by apply split_from_nonempty in Hs.
Qed.

Lemma split_from_one word s :
  length (split_from isspace word s) = 1%nat →
  (word = [] → ∃ pre w post,
     s = pre ++ w ++ post ∧ blank pre ∧ solid w ∧ w ≠ [] ∧ blank post) ∧
  (word ≠ [] → ∃ w post, s = w ++ post ∧ solid w ∧ blank post).
Proof.
  revert word. induction s as [|c s IH]; intros word; simpl.
  - destruct word; simpl; [done|]. intros _. split; [done|]. intros _.
    by exists [], [].
  - destruct (isspace c) eqn:Hc.
    + destruct word as [|c0 word].
      * intros Hlen. split; [|done]. intros _.
        destruct (proj1 (IH [] Hlen) eq_refl)
          as (pre & w & post & -> & Hpre & Hw & Hne & Hpost).
        exists (c :: pre), w, post. split_and!; [done| |done..].
        by constructor.
      * simpl. intros Hlen. split; [done|]. intros _.
        exists [], (c :: s). split_and!; [done|constructor|].
        constructor; [done|]. apply split_from_nil_blank.
        by destruct (split_from isspace [] s).
    + intros Hlen.
      assert (word ++ [c] ≠ []) as Hne by (by destruct word).
      destruct (proj2 (IH _ Hlen) Hne) as (w & post & -> & Hw & Hpost).
      assert (solid (c :: w)) by (by constructor).
      split; intros _.
      * exists [], (c :: w), post. split_and!; [done|constructor|done..].
      * by exists (c :: w), post.
Qed.

(** A string splits into one word when it is a run of non-whitespace with
    whitespace only before and after it. *)
Lemma split_one s :
  length (split isspace s) = 1%nat ↔
  ∃ pre w post,
    s = pre ++ w ++ post ∧ blank pre ∧ solid w ∧ w ≠ [] ∧ blank post.
Proof.
  unfold split. split.
  - intros Hlen. by apply (split_from_one [] s).
  - intros (pre & w & post & -> & Hpre & Hw & Hne & Hpost).
    rewrite split_from_skip, split_from_solid, split_from_blank by done.
    simpl. by destruct w.
Qed.
End split_facts.

(** ** The sort *)

Lemma key_ltb_irrefl a : key_ltb a a = false.
Proof. destruct a; simpl; [lia | done]. Qed.

Lemma key_ltb_trans a b c :
  key_ltb a b = true → key_ltb b c = true → key_ltb a c = true.
Proof. destruct a, b, c; simpl; try done; lia. Qed.

Lemma key_ltb_asym a b : key_ltb a b = true → key_ltb b a = false.
Proof. destruct a, b; simpl; try done; lia. Qed.

Lemma key_le_refl a : key_le a a.
Proof. apply key_ltb_irrefl. Qed.

Lemma key_le_trans a b c : key_le a b → key_le b c → key_le a c.
Proof. unfold key_le. destruct a, b, c; simpl; try done; lia. Qed.

Lemma key_le_antisym a b : key_le a b → key_le b a → a = b.
Proof.
  unfold key_le. destruct a, b; simpl; try done. intros. f_equal. lia.
Qed.

Lemma key_le_Fin x y : key_le (Fin x) (Fin y) ↔ x ≤ y.
Proof. unfold key_le. simpl. lia. Qed.

Lemma key_le_Inf a : key_le a Inf.
Proof. done. Qed.

Lemma key_le_Inf_l a : key_le Inf a → a = Inf.
Proof. by destruct a. Qed.

Lemma of_key_cons κ x l :
  of_key κ (x :: l) = if decide (key x = κ) then x :: of_key κ l else of_key κ l.
Proof. unfold of_key. by rewrite filter_cons. Qed.

Lemma of_key_app κ l1 l2 : of_key κ (l1 ++ l2) = of_key κ l1 ++ of_key κ l2.
Proof. unfold of_key. by rewrite filter_app. Qed.

Lemma of_key_elem κ x l : x ∈ of_key κ l ↔ key x = κ ∧ x ∈ l.
Proof. unfold of_key. by rewrite list_elem_of_filter. Qed.

Lemma insert_by_key_perm x l : insert_by_key x l ≡ₚ x :: l.
Proof.
  induction l as [|y l IH]; simpl; [done|].
  destruct (key_ltb (key y) (key x)); [|done].
  by rewrite IH, Permutation_swap.
Qed.

Lemma sort_by_key_perm l : sort_by_key l ≡ₚ l.
Proof.
  induction l as [|x l IH]; simpl; [done|].
  by rewrite insert_by_key_perm, IH.
Qed.

Lemma insert_by_key_sorted x l : by_rank l → by_rank (insert_by_key x l).
Proof.
  unfold by_rank. induction 1 as [|y l Hl IH Hy]; simpl.
  - repeat constructor.
  - destruct (key_ltb (key y) (key x)) eqn:Hlt.
    + constructor; [done|].
      apply Forall_forall. intros z Hz.
      rewrite insert_by_key_perm in Hz.
      apply elem_of_cons in Hz as [->|Hz].
      * by apply key_ltb_asym.
      * by eapply Forall_forall in Hy.
    + constructor; [by constructor|].
      constructor; [done|].
      eapply Forall_impl; [exact Hy|]. simpl. intros z Hz.
      by eapply key_le_trans.
Qed.

Lemma sort_by_key_sorted l : by_rank (sort_by_key l).
Proof.
  induction l as [|x l IH]; simpl; [constructor|].
  by apply insert_by_key_sorted.
Qed.

Lemma insert_by_key_stable κ x l :
  of_key κ (insert_by_key x l) = of_key κ (x :: l).
Proof.
  induction l as [|y l IH]; simpl; [done|].
  destruct (key_ltb (key y) (key x)) eqn:Hlt; [|done].
  rewrite (of_key_cons _ y), IH, !of_key_cons.
  destruct (decide (key y = κ)) as [Hy|Hy], (decide (key x = κ)) as [Hx|Hx];
    try done.
  rewrite Hy, Hx, key_ltb_irrefl in Hlt. done.
Qed.

Lemma sort_by_key_stable κ l : of_key κ (sort_by_key l) = of_key κ l.
Proof.
  induction l as [|x l IH]; simpl; [done|].
  by rewrite insert_by_key_stable, !of_key_cons, IH.
Qed.

(** The sort leaves a sorted list as it is. *)
Lemma sort_by_key_id l : by_rank l → sort_by_key l = l.
Proof.
  unfold by_rank. induction 1 as [|x l Hl IH Hx]; simpl; [done|].
  rewrite IH. destruct l as [|y l']; simpl; [done|].
  apply Forall_cons in Hx as [Hxy _]. unfold key_le in Hxy. by rewrite Hxy.
Qed.

(** A sorted list is determined by the suggestions it has of each key and
    their order: every stable sort returns what [sort_by_key] returns. *)
Lemma by_rank_of_key_inj l1 l2 :
  by_rank l1 → by_rank l2 → (∀ κ, of_key κ l1 = of_key κ l2) → l1 = l2.
Proof.
  unfold by_rank. intros H1. revert l2.
  induction H1 as [|x l1 Hl1 IH Hx]; intros l2 H2 Heq.
  - destruct l2 as [|y l2]; [done|].
    specialize (Heq (key y)). rewrite of_key_cons, decide_True in Heq by done.
    done.
  - destruct H2 as [|y l2 Hl2 Hy].
    { specialize (Heq (key x)). rewrite of_key_cons, decide_True in Heq by done.
      done. }
    assert (key x = key y) as Hk.
    { apply key_le_antisym.
      - assert (y ∈ of_key (key y) (x :: l1)) as [_ Hin]%of_key_elem.
        { rewrite Heq. apply of_key_elem. split; [done | left]. }
        apply elem_of_cons in Hin as [->|Hin]; [apply key_le_refl|].
        by eapply Forall_forall in Hx.
      - assert (x ∈ of_key (key x) (y :: l2)) as [_ Hin]%of_key_elem.
        { rewrite <-Heq. apply of_key_elem. split; [done | left]. }
        apply elem_of_cons in Hin as [->|Hin]; [apply key_le_refl|].
        by eapply Forall_forall in Hy. }
    pose proof (Heq (key x)) as Hx0.
    rewrite !of_key_cons, !decide_True in Hx0 by done.
    injection Hx0 as -> Htl. f_equal. apply IH; [done|].
    intros κ. destruct (decide (key y = κ)) as [<-|Hne]; [done|].
    specialize (Heq κ). by rewrite !of_key_cons, !decide_False in Heq.
Qed.

Lemma stable_sort_unique l l' : stable_sort_of l l' ↔ l' = sort_by_key l.
Proof.
  split.
  - intros [Hs Hst]. apply by_rank_of_key_inj; [done|apply sort_by_key_sorted|].
    intros κ. by rewrite Hst, sort_by_key_stable.
  - intros ->. split; [apply sort_by_key_sorted|].
    intros κ. apply sort_by_key_stable.
Qed.

Lemma by_rank_take j l : by_rank l → by_rank (take j l).
Proof.
  unfold by_rank. intros Hl. rewrite <-(take_drop j l) in Hl.
  by apply StronglySorted_app_1_l in Hl.
Qed.

(** ** The sort-and-cut step *)

(** With a positive limit the step keeps the first [k] of the sorted list. *)
Lemma sort_and_cap_pos k l :
  0 < k → sort_and_cap (Some k) l = take (Z.to_nat k) (sort_by_key l).
Proof.
  intros Hk. unfold sort_and_cap, slice_to.
  destruct (k =? 0) eqn:E0; [lia|]. simpl.
  destruct (k <? 0) eqn:En; [lia|].
  destruct (k <? Z.of_nat (length (sort_by_key l))) eqn:E; [done|].
  rewrite take_ge; [done | lia].
Qed.

(** With no limit, or the limit 0, the step only sorts. *)
Lemma sort_and_cap_off epk l :
  truthy epk = false → sort_and_cap epk l = sort_by_key l.
Proof.
  unfold sort_and_cap, truthy. destruct epk as [k|]; [|done].
  intros Hk. destruct (k =? 0); [done | done].
Qed.

(** In every case it keeps a prefix of the sorted list. *)
Lemma sort_and_cap_take epk l :
  ∃ j, sort_and_cap epk l = take j (sort_by_key l).
Proof.
  unfold sort_and_cap, slice_to. destruct epk as [k|].
  - destruct (negb (k =? 0) && (k <? Z.of_nat (length (sort_by_key l)))).
    + destruct (k <? 0); eauto.
    + exists (length (sort_by_key l)). by rewrite take_ge.
  - exists (length (sort_by_key l)). by rewrite take_ge.
Qed.

(** The step applied again, as it is to a list that several keys hold. *)
Lemma iter_sort_and_cap_take epk m l :
  (0 < m)%nat → ∃ j, Nat.iter m (sort_and_cap epk) l = take j (sort_by_key l).
Proof.
  destruct m as [|m]; [lia|]. intros _.
  induction m as [|m [j IH]].
  - simpl. apply sort_and_cap_take.
  - rewrite Nat.iter_succ, IH.
    destruct (sort_and_cap_take epk (take j (sort_by_key l))) as [j' ->].
    rewrite (sort_by_key_id (take j _)) by apply by_rank_take, sort_by_key_sorted.
    rewrite take_take. eauto.
Qed.

Lemma iter_sort_and_cap_pos k m l :
  0 < k → (0 < m)%nat →
  Nat.iter m (sort_and_cap (Some k)) l = take (Z.to_nat k) (sort_by_key l).
Proof.
  intros Hk. destruct m as [|m]; [lia|]. intros _.
  induction m as [|m IH].
  - simpl. by apply sort_and_cap_pos.
  - rewrite Nat.iter_succ, IH, sort_and_cap_pos by done.
    rewrite (sort_by_key_id (take _ _)) by apply by_rank_take, sort_by_key_sorted.
    rewrite take_take. f_equal. lia.
Qed.

Lemma iter_sort_and_cap_off epk m l :
  truthy epk = false → (0 < m)%nat →
  Nat.iter m (sort_and_cap epk) l = sort_by_key l.
Proof.
  intros Hk. destruct m as [|m]; [lia|]. intros _.
  induction m as [|m IH].
  - simpl. by apply sort_and_cap_off.
  - rewrite Nat.iter_succ, IH, sort_and_cap_off by done.
    apply sort_by_key_id, sort_by_key_sorted.
Qed.

(** The loop over the addresses applies the step to a list once per
    visit. *)
Lemma foldl_alter_lookup (g : list suggestion → list suggestion) rs
    (h : list (list suggestion)) r :
  foldl (λ h r, alter g r h) h rs !! r = Nat.iter (visits r rs) g <$> h !! r.
Proof.
  unfold visits. revert h. induction rs as [|r' rs IH]; intros h; simpl.
  - by destruct (h !! r).
  - rewrite IH, filter_cons. case_decide as Hr.
    + subst r'. rewrite list_lookup_alter_eq. simpl.
      destruct (h !! r); simpl; [|done]. by rewrite <-Nat.iter_succ_r.
    + by rewrite list_lookup_alter_ne.
Qed.

Lemma foldl_alter_length (g : list suggestion → list suggestion) rs
    (h : list (list suggestion)) :
  length (foldl (λ h r, alter g r h) h rs) = length h.
Proof.
  revert h. induction rs as [|r rs IH]; intros h; simpl; [done|].
  by rewrite IH, length_alter.
Qed.

Lemma visits_pos r rs : r ∈ rs → (0 < visits r rs)%nat.
Proof.
  unfold visits. intros Hr.
  assert (r ∈ filter (λ r', r' = r) rs) as Hin by by apply list_elem_of_filter.
  destruct (filter _ rs); [by apply elem_of_nil in Hin | simpl; lia].
Qed.

(** ** Grouping by keyword *)

Lemma collect_cons k e es :
  collect k (e :: es) = if decide (e.1 = k) then e.2 :: collect k es else collect k es.
Proof. unfold collect. rewrite filter_cons. by case_decide. Qed.

Lemma collect_app k es1 es2 : collect k (es1 ++ es2) = collect k es1 ++ collect k es2.
Proof. unfold collect. by rewrite filter_app, fmap_app. Qed.

Lemma collect_elem k x es : x ∈ collect k es ↔ (k, x) ∈ es.
Proof.
  unfold collect. rewrite list_elem_of_fmap. split.
  - intros ([k' x'] & -> & [Hk Hin]%list_elem_of_filter). simpl in *. by subst.
  - intros Hin. exists (k, x). split; [done|]. by apply list_elem_of_filter.
Qed.

Lemma dget_group_add v e k :
  dget (group_add v e) k =
    if decide (e.1 = k) then Some (default [] (dget v k) ++ [e.2]) else dget v k.
Proof. unfold group_add. rewrite dget_dset. by case_decide; subst. Qed.

Lemma dget_add_all v es k :
  dget (add_all v es) k =
    match collect k es with
    | [] => dget v k
    | l => Some (default [] (dget v k) ++ l)
    end.
Proof.
  unfold add_all. revert v. induction es as [|e es IH]; intros v; simpl; [done|].
  rewrite IH, dget_group_add, collect_cons.
  case_decide; [|done].
  destruct (collect k es); simpl; [done|]. by rewrite <-app_assoc.
Qed.

Lemma add_all_NoDup v es : NoDup (dkeys v) → NoDup (dkeys (add_all v es)).
Proof.
  unfold add_all. revert v. induction es as [|e es IH]; intros v Hv; simpl; [done|].
  apply IH. by apply dset_NoDup.
Qed.

Lemma add_all_app v es1 es2 : add_all v (es1 ++ es2) = add_all (add_all v es1) es2.
Proof. unfold add_all. by rewrite foldl_app. Qed.

(** ** The table and its lists *)

Lemma dget_view t k : dget (view t) k = deref (heap t) <$> dget (keyword_dict t) k.
Proof. unfold view. apply dget_fmap. Qed.

Lemma dkeys_view t : dkeys (view t) = dkeys (keyword_dict t).
Proof. unfold view. apply dkeys_fmap. Qed.

Lemma elem_of_view t k l :
  (k, l) ∈ view t ↔ ∃ r, (k, r) ∈ keyword_dict t ∧ l = deref (heap t) r.
Proof.
  unfold view. rewrite list_elem_of_fmap. split.
  - intros ([k' r] & [= -> ->] & Hin). by exists r.
  - intros (r & Hin & ->). by exists (k, r).
Qed.

Lemma valid_empty : unshared empty_tables.
Proof. repeat split; simpl; constructor. Qed.

(** Changing the list at one address changes the view at the key that
    holds it, when no other key does. *)
Lemma view_alter (g : list suggestion → list suggestion) kd h k r :
  NoDup (dvalues kd) → (r < length h)%nat → dget kd k = Some r →
  (λ kr : str * nat, (kr.1, deref (alter g r h) kr.2)) <$> kd =
  dset ((λ kr : str * nat, (kr.1, deref h kr.2)) <$> kd) k (g (deref h r)).
Proof.
  unfold dvalues. intros Hnd Hr.
  assert (deref (alter g r h) r = g (deref h r)) as Hat.
  { unfold deref. rewrite list_lookup_alter_eq.
    destruct (lookup_lt_is_Some_2 h r Hr) as [l ->]. done. }
  assert (∀ r', r' ≠ r → deref (alter g r h) r' = deref h r') as Hne.
  { intros r' ?. unfold deref. by rewrite list_lookup_alter_ne. }
  induction kd as [|[k' r'] kd IH]; csimpl; [done|].
  apply NoDup_cons in Hnd as [Hr' Hnd].
  case_decide as Hk; intros Hget; simplify_eq.
  - rewrite Hat. f_equal.
    apply list_fmap_ext. intros i [k'' r''] Hi. simpl. f_equal. apply Hne.
    intros ->. apply Hr'. apply list_elem_of_fmap. exists (k'', r).
    split; [done|]. by eapply list_elem_of_lookup_2.
  - rewrite Hne, IH by first [done | intros ->; apply Hr';
      apply list_elem_of_fmap; exists (k, r); split;
      [done | by apply dget_Some_elem]].
    done.
Qed.

(** Allocating a list changes no list of the view. *)
Lemma view_alloc kd h l :
  Forall (λ r, (r < length h)%nat) (dvalues kd) →
  (λ kr : str * nat, (kr.1, deref (h ++ [l]) kr.2)) <$> kd =
  (λ kr : str * nat, (kr.1, deref h kr.2)) <$> kd.
Proof.
  unfold dvalues. intros Hall. apply list_fmap_ext. intros i [k r] Hi. simpl.
  f_equal. unfold deref. rewrite lookup_app_l; [done|].
  eapply Forall_forall in Hall; [exact Hall|].
  apply list_elem_of_fmap. exists (k, r). split; [done|].
  by eapply list_elem_of_lookup_2.
Qed.

(** [setdefault] and [append] on the table are [group_add] on its view. *)
Lemma setdefault_append_view k x t :
  unshared t →
  unshared (setdefault_append k x t) ∧
  view (setdefault_append k x t) = group_add (view t) (k, x).
Proof.
  intros [[Hk Hv] Hnd]. unfold setdefault_append, group_add. simpl.
  rewrite dget_view. destruct (dget (keyword_dict t) k) as [r|] eqn:Hget; simpl.
  - assert (r < length (heap t))%nat as Hr.
    { eapply Forall_forall in Hv; [exact Hv|]. unfold dvalues.
      apply list_elem_of_fmap. exists (k, r). split; [done|].
      by apply dget_Some_elem. }
    split.
    + repeat split; simpl; [done| |done]. by rewrite length_alter.
    + unfold view. simpl. by apply view_alter.
  - split.
    + rewrite dset_new by done. unfold unshared, valid, dkeys, dvalues; simpl.
      rewrite !fmap_app, length_app. simpl.
      assert (length (heap t) ∉ (keyword_dict t).*2) as Hfresh.
      { intros Hin. eapply Forall_forall in Hv; [|exact Hin]. lia. }
      split_and!.
      * apply NoDup_app. split_and!; [done| |apply NoDup_singleton].
        intros k' Hk' ->%list_elem_of_singleton.
        by apply dget_None in Hget.
      * apply Forall_app. split.
        -- eapply Forall_impl; [exact Hv|]. simpl. lia.
        -- constructor; [lia | constructor].
      * apply NoDup_app. split_and!; [done| |apply NoDup_singleton].
        by intros r' Hr' ->%list_elem_of_singleton.
    + unfold view. simpl. rewrite !dset_new; [| |done].
      * rewrite fmap_app, view_alloc by done. simpl. do 3 f_equal.
        unfold deref. by rewrite lookup_app_r, Nat.sub_diag.
      * by rewrite dget_fmap, Hget.
Qed.

(** ** The scan of the CLDR files *)

Section scan.
Context `{Platform}.
Implicit Types (a : args) (t : tables) (c kw : str) (ign : list str).

Lemma over_limit_within n r : over_limit n r = negb (within_limit n r).
Proof.
  unfold over_limit, within_limit. destruct n as [n|]; [|done].
  destruct (n =? 0); simpl; [done|]. destruct r as [r|]; [|done].
  destruct (n <? r) eqn:E1, (r <=? n) eqn:E2; simpl; try done; lia.
Qed.

Lemma keywords_of_cons ign p ps :
  keywords_of ign (p :: ps) =
    (if single_word (str_lower p) && bool_decide (str_lower p ∉ ign)
     then [str_lower p] else []) ++ keywords_of ign ps.
Proof.
  unfold keywords_of. rewrite fmap_cons, filter_cons.
  case_decide as Hp.
  - destruct Hp as [-> Hi]. simpl. by rewrite bool_decide_eq_true_2.
  - destruct (single_word (str_lower p)) eqn:Hs; simpl; [|done].
    rewrite bool_decide_eq_false_2; [done|]. intros ?. by apply Hp.
Qed.

Lemma foldl_add_keyword_view ign c mb rk kws t :
  unshared t →
  unshared (foldl (add_keyword ign c mb rk) t kws) ∧
  view (foldl (add_keyword ign c mb rk) t kws) =
    add_all (view t)
      ((λ kw, (kw, {| emoji := c; is_base := mb; rank := rk |})) <$>
         keywords_of ign kws).
Proof.
  revert t. induction kws as [|p kws IH]; intros t Ht; simpl; [done|].
  rewrite keywords_of_cons, fmap_app, add_all_app.
  unfold add_keyword at 2 4. fold (single_word (str_lower p)).
  destruct (single_word (str_lower p) && bool_decide (str_lower p ∉ ign)).
  - destruct (setdefault_append_view (str_lower p)
      {| emoji := c; is_base := mb; rank := rk |} t Ht) as [Ht' Hv].
    destruct (IH _ Ht') as [? ->]. split; [done|]. by rewrite Hv.
  - by apply IH.
Qed.

(** The guards of the loop body are the filters of the specification:
    a character that passes them has its [default] phrases read, another
    one is skipped (after its encoding, when it is in the emoji data). *)
Lemma process_char_filters a ign pop d t c :
  process_char a ign pop d t c =
    if passes_all_filters a pop c then
      emoji_annotations ← getitem d c;
      match a_default emoji_annotations with
      | None => Raise (KeyError (lit "default"))
      | Some keywords =>
          Ok (foldl (add_keyword ign c
                       (hasBinaryProperty_EMOJI_MODIFIER_BASE c) (dget pop c))
                t keywords)
      end
    else
      match EMOJI_DATA c with
      | None => Ok t
      | Some _ => _ ← encode_utf8 c; Ok t
      end.
Proof.
  unfold process_char, passes_all_filters. rewrite over_limit_within.
  destruct (EMOJI_DATA c) as [status|]; simpl; [|done].
  destruct (encode_utf8 c) as [code|]; simpl; [|done].
  destruct (decide (code ∈ emoji_codes_to_ignore)) as [Hcode|Hcode].
  { rewrite (bool_decide_eq_true_2 (code ∈ _)) by done.
    by rewrite (bool_decide_eq_false_2 (code ∉ _)) by tauto. }
  rewrite (bool_decide_eq_false_2 (code ∈ _)) by done.
  rewrite (bool_decide_eq_true_2 (code ∉ _)) by done.
  destruct (within_limit _ _); simpl; [|done].
  destruct (hasBinaryProperty_EMOJI_MODIFIER_BASE c && _); simpl; [done|].
  destruct (decide (status = fully_qualified)) as [->|Hst].
  - by rewrite !bool_decide_eq_true_2.
  - by rewrite !bool_decide_eq_false_2 by congruence.
Qed.

Lemma encode_utf8_error c e : encode_utf8 c = Raise e → e = UnicodeEncodeError.
Proof.
  induction c as [|c0 c IH]; simpl; [done|].
  destruct (utf8_char c0); [|by intros [= <-]].
  destruct (encode_utf8 c); simpl; [done|]. intros [= <-]. by apply IH.
Qed.

(** One character adds to the table what [char_entries] lists. *)
Lemma process_char_view a ign pop d t c t' :
  unshared t → process_char a ign pop d t c = Ok t' →
  unshared t' ∧ view t' = add_all (view t) (char_entries a ign pop d c).
Proof.
  intros Ht. rewrite process_char_filters. unfold char_entries, phrases_of.
  destruct (passes_all_filters a pop c).
  - unfold getitem. destruct (dget d c) as [ann|]; simpl; [|done].
    destruct (a_default ann) as [kws|]; simpl; [|done].
    intros [= <-]. by apply foldl_add_keyword_view.
  - destruct (EMOJI_DATA c); [|by intros [= <-]].
    destruct (encode_utf8 c); simpl; [|done]. by intros [= <-].
Qed.

Lemma for_each_process_char_view a ign pop d cs t t' :
  unshared t → for_each (process_char a ign pop d) cs t = Ok t' →
  unshared t' ∧
  view t' = add_all (view t) (cs ≫= char_entries a ign pop d).
Proof.
  revert t. induction cs as [|c cs IH]; intros t Ht.
  - by intros [= <-].
  - rewrite bind_cons, add_all_app. cbn [for_each].
    destruct (process_char a ign pop d t c) as [t1|] eqn:Hc; [|done].
    intros Hrest.
    destruct (process_char_view _ _ _ _ _ _ _ Ht Hc) as [Ht1 Hv1].
    destruct (IH _ Ht1 Hrest) as [Ht' Hv']. split; [done|].
    by rewrite Hv', Hv1.
Qed.

Lemma process_file_view a ign pop d t t' :
  unshared t → process_file a ign pop d t = Ok t' →
  unshared t' ∧ view t' = add_all (view t) (file_entries a ign pop d).
Proof. apply for_each_process_char_view. Qed.

(** The table after the scan groups what the two files contribute. *)
Lemma scanned_view a f t :
  scanned a f = Ok t →
  ∃ ign, keywords_to_ignore (ignore_keywords a) = Ok ign ∧
    unshared t ∧ view t = add_all [] (scan_entries a f ign).
Proof.
  unfold scanned, scan_entries.
  destruct (keywords_to_ignore _) as [ign|]; simpl; [|done].
  destruct (process_file _ _ _ (annotations f) _) as [t1|] eqn:H1; simpl;
    [|done].
  intros H2. exists ign. split; [done|].
  destruct (process_file_view _ _ _ _ _ _ valid_empty H1) as [Ht1 Hv1].
  destruct (process_file_view _ _ _ _ _ _ Ht1 H2) as [Ht Hv].
  split; [done|]. by rewrite Hv, Hv1, add_all_app.
Qed.
End scan.

(** ** Loops *)

Lemma for_each_invariant {A S} (P : S → Prop) (body : S → A → result S)
    (xs : list A) (s0 s1 : S) :
  (∀ s x s', P s → body s x = Ok s' → P s') →
  P s0 → for_each body xs s0 = Ok s1 → P s1.
Proof.
  intros Hbody. revert s0. induction xs as [|x xs IH]; intros s0 Hs; simpl.
  - by intros [= <-].
  - destruct (body s0 x) as [s2|] eqn:Hb; simpl; [|done]. eauto.
Qed.

(** ** The plural linkage *)

Section linkage.
Context `{Platform}.
Implicit Types (kd : list (str * nat)) (ps : list (str * str)) (p s k : str).

(** The three cases of one step. *)
Lemma link_plural_present kd p s :
  is_Some (dget kd p) → link_plural kd (p, s) = kd.
Proof. intros Hp%dmem_true. unfold link_plural. by rewrite Hp. Qed.

Lemma link_plural_no_singular kd p s :
  dget kd s = None → link_plural kd (p, s) = kd.
Proof.
  intros Hs. unfold link_plural. rewrite Hs.
  by destruct (negb (dmem kd p) && dmem kd s).
Qed.

Lemma link_plural_fill kd p s r :
  dget kd p = None → dget kd s = Some r →
  link_plural kd (p, s) = kd ++ [(p, r)].
Proof.
  intros Hp Hs. unfold link_plural.
  apply dmem_false in Hp as Hp'. rewrite Hp'.
  assert (dmem kd s = true) as -> by (apply dmem_true; eauto).
  simpl. rewrite Hs. by apply dset_new.
Qed.

Lemma link_plural_cases kd p s :
  link_plural kd (p, s) = kd ∨
  ∃ r, dget kd p = None ∧ dget kd s = Some r ∧
       link_plural kd (p, s) = kd ++ [(p, r)].
Proof.
  destruct (dget kd p) as [rp|] eqn:Hp.
  { left. apply link_plural_present. eauto. }
  destruct (dget kd s) as [r|] eqn:Hs.
  - right. exists r. split_and!; [done..|]. by apply link_plural_fill.
  - left. by apply link_plural_no_singular.
Qed.

(** A step keeps every key with its list. *)
Lemma link_plural_old kd item k r :
  dget kd k = Some r → dget (link_plural kd item) k = Some r.
Proof.
  destruct item as [p s]. intros Hk.
  destruct (link_plural_cases kd p s) as [->|(r' & _ & _ & ->)]; [done|].
  by apply dget_app_l.
Qed.

Lemma link_all_old kd ps k r :
  dget kd k = Some r → dget (foldl link_plural kd ps) k = Some r.
Proof.
  revert kd. induction ps as [|item ps IH]; intros kd Hk; cbn [foldl]; [done|].
  by apply IH, link_plural_old.
Qed.

(** The linkage allocates no list. *)
Lemma link_all_values kd ps r :
  r ∈ dvalues (foldl link_plural kd ps) → r ∈ dvalues kd.
Proof.
  revert kd. induction ps as [|[p s] ps IH]; intros kd; cbn [foldl]; [done|].
  intros Hr%IH.
  destruct (link_plural_cases kd p s) as [Heq|(r' & _ & Hs & Heq)];
    rewrite Heq in Hr; [done|]. unfold dvalues in *.
  rewrite fmap_app, elem_of_app in Hr. destruct Hr as [Hr|Hr]; [done|].
  apply list_elem_of_singleton in Hr. simpl in Hr. subst r'.
  apply list_elem_of_fmap. exists (s, r). split; [done|].
  by apply dget_Some_elem.
Qed.

Lemma link_all_NoDup kd ps :
  NoDup (dkeys kd) → NoDup (dkeys (foldl link_plural kd ps)).
Proof.
  revert kd. induction ps as [|[p s] ps IH]; intros kd Hkd; cbn [foldl]; [done|].
  apply IH.
  destruct (link_plural_cases kd p s) as [->|(r' & Hp & _ & ->)]; [done|].
  rewrite <-(dset_new kd p r') by done. by apply dset_NoDup.
Qed.

(** A key that the linkage creates is a plural of the noun data, and it
    holds the list of its singular. *)
Lemma link_all_new kd ps k r :
  dget kd k = None → dget (foldl link_plural kd ps) k = Some r →
  ∃ s, (k, s) ∈ ps ∧ dget (foldl link_plural kd ps) s = Some r.
Proof.
  revert kd. induction ps as [|[p s] ps IH]; intros kd Hk; cbn [foldl].
  { intros Hk'. by rewrite Hk in Hk'. }
  intros Hfin.
  destruct (dget (link_plural kd (p, s)) k) as [r0|] eqn:Hstep.
  - destruct (link_plural_cases kd p s) as [Heq|(r' & Hp & Hs & Heq)];
      rewrite Heq in Hstep; [by rewrite Hk in Hstep|].
    rewrite dget_snoc, Hk in Hstep. case_decide; [|done]. simplify_eq.
    exists s. split; [left|].
    rewrite (link_all_old _ _ _ r0) in Hfin; [|by rewrite Heq, dget_snoc, Hk, decide_True].
    simplify_eq. apply link_all_old. rewrite Heq. by apply dget_app_l.
  - destruct (IH _ Hstep Hfin) as (s' & Hin & Hs'). exists s'.
    split; [by right | done].
Qed.

(** A plural that is a key of the noun map once fills its gap, whatever
    the other pairs do. *)
Lemma link_all_fill kd ps p s r :
  NoDup (dkeys ps) → (p, s) ∈ ps →
  dget kd p = None → dget kd s = Some r →
  dget (foldl link_plural kd ps) p = Some r.
Proof.
  unfold dkeys. revert kd.
  induction ps as [|[p' s'] ps IH]; intros kd Hnd Hin Hp Hs; cbn [foldl].
  { by apply elem_of_nil in Hin. }
  apply NoDup_cons in Hnd as [Hp' Hnd].
  apply elem_of_cons in Hin as [Heq|Hin].
  - simplify_eq. apply link_all_old.
    rewrite (link_plural_fill _ _ _ r) by done.
    by rewrite dget_snoc, Hp, decide_True.
  - assert (p' ≠ p) as Hne.
    { intros ->. apply Hp'. apply list_elem_of_fmap. by exists (p, s). }
    apply IH; [done..| |by apply link_plural_old].
    destruct (link_plural_cases kd p' s') as [->|(r' & _ & _ & ->)]; [done|].
    by rewrite dget_snoc, Hp, decide_False.
Qed.

(** The noun map has each plural once. *)
Lemma plurals_to_singulars_dict_NoDup noun_data ps :
  plurals_to_singulars_dict noun_data = Ok ps → NoDup (dkeys ps).
Proof.
  unfold plurals_to_singulars_dict.
  apply (for_each_invariant (λ d, NoDup (dkeys d))); [|constructor].
  intros d row d' Hd.
  destruct (getitem noun_data row) as [n|]; simpl; [|done].
  destruct (plural n) as [p|]; [|done].
  case_bool_decide; intros [= <-]; [by apply dset_NoDup | done].
Qed.
End linkage.

(** ** The run as a whole *)

Section run_facts.
Context `{Platform}.
Implicit Types (a : args) (f : files) (t : tables) (k : str).

Lemma linked_inv a f t' :
  linked a f = Ok t' →
  ∃ t ps, scanned a f = Ok t ∧
    plurals_to_singulars_dict (nouns_json f) = Ok ps ∧
    keyword_dict t' = foldl link_plural (keyword_dict t) ps ∧
    heap t' = heap t.
Proof.
  unfold linked. destruct (scanned a f) as [t|]; simpl; [|done].
  destruct (plurals_to_singulars_dict _) as [ps|]; simpl; [|done].
  intros [= <-]. by exists t, ps.
Qed.

Lemma linked_valid a f t' : linked a f = Ok t' → valid t'.
Proof.
  intros (t & ps & Hs & _ & Hkd & Hh)%linked_inv.
  apply scanned_view in Hs as (ign & _ & [[Hk Hv] _] & _).
  unfold valid. rewrite Hkd, Hh. split; [by apply link_all_NoDup|].
  apply Forall_forall. intros r Hr%link_all_values.
  by eapply Forall_forall in Hv.
Qed.

Lemma deref_sorted epk t r :
  (r < length (heap t))%nat →
  deref (heap (sort_lists epk t)) r =
    Nat.iter (visits r (dvalues (keyword_dict t))) (sort_and_cap epk)
      (deref (heap t) r).
Proof.
  intros Hr. unfold sort_lists, deref. simpl. rewrite foldl_alter_lookup.
  by destruct (lookup_lt_is_Some_2 _ _ Hr) as [l ->].
Qed.

(** The returned table: the keys of the linked table, each with the
    final state of its list. *)
Lemma gen_emoji_lexicon_inv a f out :
  gen_emoji_lexicon a f = Ok out →
  ∃ t, linked a f = Ok t ∧
    out = (λ kr : str * nat, (kr.1, final_list a t kr.2)) <$> keyword_dict t.
Proof.
  unfold gen_emoji_lexicon, run, ranked. intros Hout.
  destruct (linked a f) as [t|] eqn:Hl; simpl in Hout; [|done].
  injection Hout as <-. exists t. split; [done|].
  apply linked_valid in Hl as [_ Hv].
  unfold shaped, view. rewrite <-list_fmap_compose.
  apply list_fmap_ext. intros i [k r] Hi. simpl. f_equal.
  unfold final_list. rewrite <-deref_sorted; [done|].
  eapply Forall_forall in Hv; [exact Hv|]. unfold dvalues.
  apply list_elem_of_fmap. exists (k, r). split; [done|].
  by eapply list_elem_of_lookup_2.
Qed.

Lemma elem_of_out a t k l :
  (k, l) ∈ (λ kr : str * nat, (kr.1, final_list a t kr.2)) <$> keyword_dict t ↔
  ∃ r, (k, r) ∈ keyword_dict t ∧ l = final_list a t r.
Proof.
  rewrite list_elem_of_fmap. split.
  - intros ([k' r] & [= -> ->] & Hin). by exists r.
  - intros (r & Hin & ->). by exists (k, r).
Qed.

(** Every list of the linked table is what the scan contributed under
    one keyword. *)
Lemma linked_lists a f t k r :
  linked a f = Ok t → (k, r) ∈ keyword_dict t →
  ∃ ign k0, keywords_to_ignore (ignore_keywords a) = Ok ign ∧
    deref (heap t) r = collect k0 (scan_entries a f ign).
Proof.
  intros (t0 & ps & Hs & _ & Hkd & Hh)%linked_inv Hin.
  apply scanned_view in Hs as (ign & Hign & [[Hk Hv] _] & Hview).
  exists ign. rewrite Hh.
  assert (r ∈ dvalues (keyword_dict t0)) as Hr.
  { apply (link_all_values _ ps). rewrite <-Hkd. unfold dvalues.
    apply list_elem_of_fmap. by exists (k, r). }
  unfold dvalues in Hr. apply list_elem_of_fmap in Hr as ([k0 r0] & -> & Hin0).
  exists k0. split; [done|]. simpl.
  apply dget_elem_NoDup in Hin0; [|done].
  pose proof (dget_view t0 k0) as Hg. rewrite Hin0, Hview, dget_add_all in Hg.
  simpl in Hg. destruct (collect k0 _); by simplify_eq.
Qed.
End run_facts.

(** ** Where a returned entry comes from *)

Section origin.
Context `{Platform}.
Implicit Types (a : args) (f : files) (t : tables) (k : str).

Lemma file_entries_elem a ign pop d k s :
  (k, s) ∈ file_entries a ign pop d →
  ∃ c, c ∈ dkeys d ∧ passes_all_filters a pop c = true ∧
    s = suggest pop c ∧ k ∈ keywords_of ign (phrases_of d c).
Proof.
  unfold file_entries. rewrite list_elem_of_bind.
  intros (c & Hin & Hc). exists c. split; [done|].
  unfold char_entries in Hin.
  destruct (passes_all_filters a pop c); [|by apply elem_of_nil in Hin].
  apply list_elem_of_fmap in Hin as (kw & [= -> ->] & Hkw). done.
Qed.

Lemma scan_entries_elem a f ign k s :
  (k, s) ∈ scan_entries a f ign →
  ∃ d c, (d = annotations f ∨ d = annotationsDerived f) ∧
    c ∈ dkeys d ∧
    passes_all_filters a (popularity_dict (ranked_tsv f)) c = true ∧
    s = suggest (popularity_dict (ranked_tsv f)) c ∧
    k ∈ keywords_of ign (phrases_of d c).
Proof.
  unfold scan_entries. rewrite elem_of_app.
  intros [Hin|Hin]; apply file_entries_elem in Hin as (c & ?);
    [exists (annotations f), c | exists (annotationsDerived f), c]; tauto.
Qed.

Lemma final_list_take a t r :
  r ∈ dvalues (keyword_dict t) →
  ∃ j, final_list a t r =
    shape (export_base_rank a) <$> take j (sort_by_key (deref (heap t) r)).
Proof.
  intros Hr%visits_pos. unfold final_list.
  destruct (iter_sort_and_cap_take (emojis_per_keyword a) _
    (deref (heap t) r) Hr) as [j ->]. by exists j.
Qed.

Lemma final_list_elem a t r x :
  r ∈ dvalues (keyword_dict t) → x ∈ final_list a t r →
  ∃ s, x = shape (export_base_rank a) s ∧ s ∈ deref (heap t) r.
Proof.
  intros [j ->]%(final_list_take a).
  intros (s & -> & Hs)%list_elem_of_fmap. exists s. split; [done|].
  apply subseteq_take in Hs. by rewrite sort_by_key_perm in Hs.
Qed.

Lemma elem_of_dvalues {V} (d : list (str * V)) k v : (k, v) ∈ d → v ∈ dvalues d.
Proof.
  intros Hin. unfold dvalues. apply list_elem_of_fmap. by exists (k, v).
Qed.

(** Every returned entry is the suggestion made for a character of one
    of the two files that passes all the filters. *)
Lemma out_entry_origin a f out k l x :
  gen_emoji_lexicon a f = Ok out → (k, l) ∈ out → x ∈ l →
  ∃ d c, (d = annotations f ∨ d = annotationsDerived f) ∧
    c ∈ dkeys d ∧
    passes_all_filters a (popularity_dict (ranked_tsv f)) c = true ∧
    x = shape (export_base_rank a)
          (suggest (popularity_dict (ranked_tsv f)) c).
Proof.
  intros (t & Hl & ->)%gen_emoji_lexicon_inv (r & Hin & ->)%elem_of_out Hx.
  apply final_list_elem in Hx as (s & -> & Hs);
    [|by eapply elem_of_dvalues].
  destruct (linked_lists _ _ _ _ _ Hl Hin) as (ign & k0 & _ & Heq).
  rewrite Heq in Hs. apply collect_elem, scan_entries_elem in Hs
    as (d & c & Hd & Hc & Hp & -> & _).
  by exists d, c.
Qed.
End origin.

(** ** The order of a returned list *)

Lemma StronglySorted_lookup_lt {A} (R : relation A) (l : list A) i j x y :
  StronglySorted R l → l !! i = Some x → l !! j = Some y → (i < j)%nat → R x y.
Proof.
  intros Hl. revert i j. induction Hl as [|z l Hl IH Hz]; intros i j; [done|].
  destruct i as [|i], j as [|j]; simpl; try lia.
  - intros [= ->] Hy _. eapply Forall_forall in Hz; [exact Hz|].
    by eapply list_elem_of_lookup_2.
  - intros Hx Hy ?. apply (IH i j); [done..|lia].
Qed.

Lemma filter_prefix {A} (P : A → Prop) `{∀ x, Decision (P x)} (l1 l2 : list A) :
  l1 `prefix_of` l2 → filter P l1 `prefix_of` filter P l2.
Proof. intros [k ->]. rewrite filter_app. by apply prefix_app_r. Qed.

Lemma fmap_prefix {A B} (g : A → B) (l1 l2 : list A) :
  l1 `prefix_of` l2 → g <$> l1 `prefix_of` g <$> l2.
Proof. intros [k ->]. rewrite fmap_app. by apply prefix_app_r. Qed.

Section order.
Context `{Platform}.
Implicit Types (a : args) (f : files) (t : tables) (k : str)
  (pop : list (str * Z)) (b : bool).

Lemma entry_key_shape pop b s :
  ranked_by pop s → entry_key pop (shape b s) = key s.
Proof.
  unfold ranked_by, entry_key, key, shape. intros ->. by destruct b.
Qed.

Lemma by_rank_entries pop b l :
  Forall (ranked_by pop) l → by_rank l →
  StronglySorted (λ x y, key_le (entry_key pop x) (entry_key pop y))
    (shape b <$> l).
Proof.
  unfold by_rank. intros Hall Hl.
  induction Hl as [|s l Hl IH Hs]; csimpl; [constructor|].
  apply Forall_cons in Hall as [Hrs Hall].
  constructor; [by apply IH|].
  apply Forall_fmap, Forall_forall. intros s' Hs'. simpl.
  rewrite !entry_key_shape; [|by eapply Forall_forall in Hall|done].
  by eapply Forall_forall in Hs.
Qed.

Lemma of_key_entries pop b κ l :
  Forall (ranked_by pop) l →
  filter (λ x, entry_key pop x = κ) (shape b <$> l) = shape b <$> of_key κ l.
Proof.
  induction 1 as [|s l Hs Hl IH]; [done|].
  rewrite fmap_cons, filter_cons, of_key_cons, IH, entry_key_shape by done.
  by case_decide.
Qed.

(** What a returned list is, from the list the sort loop found. *)
Lemma out_list_inv a f out k l :
  gen_emoji_lexicon a f = Ok out → (k, l) ∈ out →
  ∃ v pre j, lists_before_sort a f = Ok v ∧ dget v k = Some pre ∧
    Forall (ranked_by (popularity_dict (ranked_tsv f))) pre ∧
    l = shape (export_base_rank a) <$> take j (sort_by_key pre) ∧
    (truthy (emojis_per_keyword a) = false → j = length pre) ∧
    (∀ kcap, 0 < kcap → emojis_per_keyword a = Some kcap →
       j = Z.to_nat kcap) ∧
    ∃ ign k0, keywords_to_ignore (ignore_keywords a) = Ok ign ∧
      pre = collect k0 (scan_entries a f ign).
Proof.
  intros (t & Hl & ->)%gen_emoji_lexicon_inv (r & Hin & ->)%elem_of_out.
  pose proof (linked_valid _ _ _ Hl) as [Hnd Hv].
  destruct (linked_lists _ _ _ _ _ Hl Hin) as (ign & k0 & Hign & Hpre).
  pose proof (visits_pos _ _ (elem_of_dvalues _ _ _ Hin)) as Hm.
  assert (∃ j, final_list a t r =
      shape (export_base_rank a) <$> take j (sort_by_key (deref (heap t) r)) ∧
      (truthy (emojis_per_keyword a) = false → j = length (deref (heap t) r)) ∧
      (∀ kcap, 0 < kcap → emojis_per_keyword a = Some kcap →
         j = Z.to_nat kcap)) as (j & Hj & Hoff & Hpos).
  { unfold final_list. destruct (truthy (emojis_per_keyword a)) eqn:Hon.
    - destruct (emojis_per_keyword a) as [kc|] eqn:Hk; [|done].
      destruct (decide (0 < kc)) as [Hkc|Hkc].
      + exists (Z.to_nat kc). rewrite iter_sort_and_cap_pos by done.
        split_and!; [done..|]. by intros ? _ [= <-].
      + destruct (iter_sort_and_cap_take (Some kc) _ (deref (heap t) r) Hm)
          as [j ->].
        exists j. split_and!; [done..|]. intros ? ? [= <-]. lia.
    - exists (length (deref (heap t) r)).
      rewrite iter_sort_and_cap_off by done.
      rewrite take_ge by (by rewrite sort_by_key_perm).
      split_and!; [done..|]. intros kc ? Hk. rewrite Hk in Hon.
      unfold truthy in Hon. destruct (kc =? 0) eqn:?; [lia | done].
  }
  exists (view t), (deref (heap t) r), j.
  split_and!; [unfold lists_before_sort; by rewrite Hl| |
               |done..|by exists ign, k0].
  - rewrite dget_view. by rewrite (dget_elem_NoDup _ _ _ Hnd Hin).
  - rewrite Hpre. apply Forall_forall.
    intros s (d & c & _ & _ & _ & -> & _)%collect_elem%scan_entries_elem.
    done.
Qed.
End order.

(** ** The keys of the table *)

Section keys.
Context `{Platform}.
Implicit Types (a : args) (f : files) (t : tables) (k : str).

Lemma dkeys_is_Some {V} (d : list (str * V)) k :
  k ∈ dkeys d ↔ is_Some (dget d k).
Proof.
  destruct (dget d k) eqn:Hg.
  - split; [by eauto|]. intros _.
    destruct (decide (k ∈ dkeys d)) as [|Hn]; [done|].
    apply dget_None in Hn. congruence.
  - split; [|by intros [? ?]]. intros Hin. by apply dget_None in Hg.
Qed.

Lemma dkeys_add_all v es k :
  k ∈ dkeys (add_all v es) ↔ k ∈ dkeys v ∨ ∃ x, (k, x) ∈ es.
Proof.
  rewrite !dkeys_is_Some, dget_add_all.
  destruct (collect k es) as [|x l] eqn:Hc.
  - split; [by left|]. intros [?|[x Hx]]; [done|].
    apply collect_elem in Hx. rewrite Hc in Hx. by apply elem_of_nil in Hx.
  - split; [|by eauto]. intros _. right. exists x.
    apply collect_elem. rewrite Hc. left.
Qed.

(** The keys of the scanned table are single words that are not
    ignored. *)
Lemma scanned_keys_not_ignored a f t ign k :
  scanned a f = Ok t → keywords_to_ignore (ignore_keywords a) = Ok ign →
  k ∈ dkeys (keyword_dict t) → single_word k = true ∧ k ∉ ign.
Proof.
  intros (ign' & Hign & _ & Hv)%scanned_view Hign'.
  rewrite Hign in Hign'. injection Hign' as ->.
  rewrite <-dkeys_view, Hv, dkeys_add_all.
  intros [[]%elem_of_nil|[x Hx]].
  apply scan_entries_elem in Hx as (d & c & _ & _ & _ & _ & Hk).
  unfold keywords_of in Hk. by apply list_elem_of_filter in Hk as [? _].
Qed.

(** A character that passes the filters adds as keys the lowercased
    phrases of its [default] list that are one word and not ignored, and
    nothing else. *)
Lemma qualifying_character_keys a ignore popularity cldr_dict t c ann phrases :
  unshared t → passes_all_filters a popularity c = true →
  dget cldr_dict c = Some ann → a_default ann = Some phrases →
  ∃ t', process_char a ignore popularity cldr_dict t c = Ok t' ∧
    view t' =
      add_all (view t)
        ((λ kw, (kw, suggest popularity c)) <$> keywords_of ignore phrases) ∧
    ∀ k, k ∈ dkeys (keyword_dict t') ↔
         k ∈ dkeys (keyword_dict t) ∨
         ∃ p, p ∈ phrases ∧ k = str_lower p ∧
              single_word k = true ∧ k ∉ ignore.
Proof.
  intros Ht Hp Hd Hann.
  assert (∃ t', process_char a ignore popularity cldr_dict t c = Ok t')
    as [t' Ht'].
  { rewrite process_char_filters, Hp. unfold getitem. rewrite Hd. simpl.
    rewrite Hann. eauto. }
  exists t'. split; [done|].
  destruct (process_char_view _ _ _ _ _ _ _ Ht Ht') as [_ Hv].
  unfold char_entries, phrases_of in Hv. rewrite Hp, Hd, Hann in Hv.
  simpl in Hv. split; [done|].
  intros k. rewrite <-!dkeys_view, Hv, dkeys_add_all.
  apply or_iff_compat_l. split.
  - intros (x & (kw & [= -> ->] & Hkw)%list_elem_of_fmap).
    unfold keywords_of in Hkw.
    apply list_elem_of_filter in Hkw as [[Hw Hi] (p & -> & Hp')%list_elem_of_fmap].
    by exists p.
  - intros (p & Hp' & -> & Hw & Hi). exists (suggest popularity c).
    apply list_elem_of_fmap. exists (str_lower p). split; [done|].
    unfold keywords_of. apply list_elem_of_filter. split; [done|].
    by apply list_elem_of_fmap_2.
Qed.
End keys.

(** * The properties of the returned table *)

Section returned_table.
Context `{Platform}.
Implicit Types (a : args) (f : files) (t : tables) (k : str).

(** C1. Every list of the returned table is in non-decreasing rank, with
    the entries of no rank after all the ranked ones, and the entries of
    one rank (or of no rank) are in the order they had in the list before
    the sort: all of them when nothing was cut from the list, a first
    part of them otherwise.  The rank of an entry is the popularity rank
    of its emoji, which is the rank the entry shows when it shows one. *)
Theorem lists_are_sorted_by_rank a f out k l :
  gen_emoji_lexicon a f = Ok out → (k, l) ∈ out →
  let pop := popularity_dict (ranked_tsv f) in
  let b := export_base_rank a in
  StronglySorted (λ x y, key_le (entry_key pop x) (entry_key pop y)) l ∧
  (∀ s, Full s ∈ l → key s = entry_key pop (Full s)) ∧
  (∀ i j x y, l !! i = Some x → l !! j = Some y →
     entry_key pop x = Inf → entry_key pop y ≠ Inf → (j < i)%nat) ∧
  ∃ v pre, lists_before_sort a f = Ok v ∧ dget v k = Some pre ∧
    (∀ κ, filter (λ x, entry_key pop x = κ) l `prefix_of`
            filter (λ x, entry_key pop x = κ) (shape b <$> pre)) ∧
    (length l = length pre →
       ∀ κ, filter (λ x, entry_key pop x = κ) l =
            filter (λ x, entry_key pop x = κ) (shape b <$> pre)) ∧
    (truthy (emojis_per_keyword a) = false → length l = length pre).
Proof.
  intros Hout Hin pop b.
  destruct (out_list_inv _ _ _ _ _ Hout Hin)
    as (v & pre & j & Hv & Hpre & Hrk & -> & Hoff & _ & _).
  fold pop in Hrk. fold b.
  assert (Forall (ranked_by pop) (take j (sort_by_key pre))) as Hrk'.
  { apply Forall_forall. intros s Hs%subseteq_take.
    rewrite sort_by_key_perm in Hs. by eapply Forall_forall in Hrk. }
  assert (StronglySorted (λ x y, key_le (entry_key pop x) (entry_key pop y))
            (shape b <$> take j (sort_by_key pre))) as Hsorted.
  { apply by_rank_entries; [done|]. apply by_rank_take, sort_by_key_sorted. }
  split_and!; [done| | |].
  - intros s (s0 & Heq & Hs0)%list_elem_of_fmap.
    eapply Forall_forall in Hrk'; [|exact Hs0].
    rewrite Heq, entry_key_shape by done.
    unfold shape in Heq. destruct b; by simplify_eq.
  - intros i j' x y Hx Hy Hxk Hyk.
    destruct (decide (j' < i)%nat) as [|Hge]; [done|].
    destruct (decide (i = j')) as [->|Hne]; [by simplify_eq|].
    assert (i < j')%nat as Hlt by lia.
    pose proof (StronglySorted_lookup_lt _ _ _ _ _ _ Hsorted Hx Hy Hlt) as Hle.
    simpl in Hle. rewrite Hxk in Hle. by apply key_le_Inf_l in Hle.
  - exists v, pre. split_and!; [done..| | |].
    + intros κ. rewrite !of_key_entries by done.
      apply fmap_prefix. rewrite <-(sort_by_key_stable κ pre).
      apply filter_prefix, prefix_take.
    + rewrite length_fmap, length_take. intros Hlen κ.
      rewrite take_ge.
      * by rewrite !of_key_entries, sort_by_key_stable
          by (done || by rewrite sort_by_key_perm).
      * pose proof (Permutation_length (sort_by_key_perm pre)). lia.
    + intros ->%Hoff. rewrite length_fmap, length_take.
      pose proof (Permutation_length (sort_by_key_perm pre)). lia.
Qed.

(** C2. With [emojis_per_keyword = k] for a positive [k], every list of
    the returned table has at most [k] entries, and they are the first
    [k] (or all, if there are fewer) of the list before the sort put in
    order of rank by a stable sort: none of the rest has a lower rank,
    and among equal ranks, and among the unranked, the earlier in the
    scan of the two annotation files are the ones kept. *)
Theorem emojis_per_keyword_keeps_lowest_ranked a f kcap out k l :
  0 < kcap → emojis_per_keyword a = Some kcap →
  gen_emoji_lexicon a f = Ok out → (k, l) ∈ out →
  Z.of_nat (length l) ≤ kcap ∧
  ∃ v pre kept rest, lists_before_sort a f = Ok v ∧ dget v k = Some pre ∧
    l = shape (export_base_rank a) <$> kept ∧
    stable_sort_of pre (kept ++ rest) ∧
    length kept = Nat.min (Z.to_nat kcap) (length pre) ∧
    (∀ x y, x ∈ kept → y ∈ rest → key_le (key x) (key y)) ∧
    ∃ ign k0, keywords_to_ignore (ignore_keywords a) = Ok ign ∧
      pre = collect k0 (scan_entries a f ign).
Proof.
  intros Hk Hcap Hout Hin.
  destruct (out_list_inv _ _ _ _ _ Hout Hin)
    as (v & pre & j & Hv & Hpre & _ & -> & _ & Hj & Hscan).
  rewrite (Hj kcap Hk Hcap).
  pose proof (Permutation_length (sort_by_key_perm pre)) as Hlen.
  split.
  { rewrite length_fmap, length_take. lia. }
  exists v, pre, (take (Z.to_nat kcap) (sort_by_key pre)),
    (drop (Z.to_nat kcap) (sort_by_key pre)).
  rewrite take_drop. split_and!; [done..| | | |done].
  - by apply stable_sort_unique.
  - rewrite length_take. lia.
  - intros x y Hx Hy. pose proof (sort_by_key_sorted pre) as Hs.
    unfold by_rank in Hs. rewrite <-(take_drop (Z.to_nat kcap)) in Hs.
    by eapply (StronglySorted_app_1_elem_of _ _ _ x y) in Hs.
Qed.

(** C3. With [num_emojis = n] for a positive [n], every entry of the
    returned table, under whatever key (one from the annotations or one
    made by the plural linkage), is of an emoji that has a popularity
    rank, and that rank is at most [n]; with [export_base_rank] it is the
    rank the entry shows. *)
Theorem num_emojis_bounds_every_rank a f n out k l x :
  0 < n → num_emojis a = Some n →
  gen_emoji_lexicon a f = Ok out → (k, l) ∈ out → x ∈ l →
  ∃ r, dget (popularity_dict (ranked_tsv f)) (entry_emoji x) = Some r ∧
    r ≤ n ∧ ∀ s, x = Full s → rank s = Some r.
Proof.
  intros Hn Hnum Hout Hin Hx.
  destruct (out_entry_origin _ _ _ _ _ _ Hout Hin Hx)
    as (d & c & _ & _ & Hp & ->).
  unfold passes_all_filters in Hp. rewrite Hnum in Hp.
  repeat apply andb_prop in Hp as [Hp ?].
  unfold within_limit in *.
  destruct (n =? 0) eqn:E0; [lia|].
  destruct (dget (popularity_dict (ranked_tsv f)) c) as [r|] eqn:Hr; [|done].
  exists r. unfold shape, suggest.
  destruct (export_base_rank a); simpl; (split_and!; [done | lia |]).
  - by intros s [= <-].
  - done.
Qed.

(** C4. The plural linkage only fills gaps.  For each pair of the noun
    map, on the table as the loop reaches the pair: a plural that is a
    key leaves the table as it is, and so does a singular that is not a
    key; a plural that is not a key with a singular that is one is added
    at the end with the list object of the singular.  For the loop as a
    whole: no list is allocated, every key of the scanned table keeps its
    list, a key that is new is a plural holding the list of its singular,
    and a gap of the scanned table is filled; and in the returned table
    such a plural has the list of its singular. *)
Theorem plural_linkage_only_fills_gaps a f t t' :
  scanned a f = Ok t → linked a f = Ok t' →
  ∃ ps, plurals_to_singulars_dict (nouns_json f) = Ok ps ∧
    heap t' = heap t ∧
    keyword_dict t' = foldl link_plural (keyword_dict t) ps ∧
    (∀ i p s, ps !! i = Some (p, s) →
       let before := foldl link_plural (keyword_dict t) (take i ps) in
       let after := foldl link_plural (keyword_dict t) (take (S i) ps) in
       after = link_plural before (p, s) ∧
       (is_Some (dget before p) → after = before) ∧
       (dget before s = None → after = before) ∧
       (∀ r, dget before p = None → dget before s = Some r →
          after = before ++ [(p, r)] ∧
          dget after p = Some r ∧ dget after s = Some r)) ∧
    (∀ k r, dget (keyword_dict t) k = Some r →
       dget (keyword_dict t') k = Some r) ∧
    (∀ k r, dget (keyword_dict t) k = None →
       dget (keyword_dict t') k = Some r →
       ∃ s, (k, s) ∈ ps ∧ dget (keyword_dict t') s = Some r) ∧
    (∀ p s r, (p, s) ∈ ps → dget (keyword_dict t) p = None →
       dget (keyword_dict t) s = Some r →
       dget (keyword_dict t') p = Some r ∧
       dget (keyword_dict t') s = Some r ∧
       ∀ out, gen_emoji_lexicon a f = Ok out →
         dget out p = Some (final_list a t' r) ∧ dget out s = dget out p).
Proof.
  intros Hs Hl.
  destruct (linked_inv _ _ _ Hl) as (t0 & ps & Hs' & Hps & Hkd & Hh).
  rewrite Hs in Hs'. injection Hs' as <-.
  exists ps. split_and!; [done..| | | |].
  - intros i p s Hi before after. subst before after.
    rewrite (take_S_r _ _ _ Hi), foldl_app. cbn [foldl].
    set (before := foldl link_plural (keyword_dict t) (take i ps)).
    split_and!; [done| | |].
    + apply link_plural_present.
    + apply link_plural_no_singular.
    + intros r Hp Hsg. rewrite (link_plural_fill _ _ _ r) by done.
      split_and!; [done| |by apply dget_app_l].
      by rewrite dget_snoc, Hp, decide_True.
  - intros k r Hk. rewrite Hkd. by apply link_all_old.
  - intros k r Hk. rewrite Hkd. by apply link_all_new.
  - intros p s r Hin Hp Hsg.
    assert (dget (keyword_dict t') p = Some r) as Hp'.
    { rewrite Hkd. eapply link_all_fill; [|done..].
      by eapply plurals_to_singulars_dict_NoDup. }
    assert (dget (keyword_dict t') s = Some r) as Hs'.
    { rewrite Hkd. by apply link_all_old. }
    split_and!; [done..|].
    intros out (t'' & Hl' & ->)%gen_emoji_lexicon_inv.
    rewrite Hl in Hl'. injection Hl' as <-.
    by rewrite !dget_fmap, Hp', Hs'.
Qed.

(** C6. A character that fails one of the filters (it is in the emoji
    reference data, its encoding is not an ignored code, it is within
    [num_emojis] when that is set, it is not a modifier base of more than
    one code point, it is fully qualified) leaves the table as it is, and
    every entry of the returned table is of a character of one of the
    two files that passes all of them. *)
Theorem only_characters_passing_all_filters_contribute a f :
  let popularity := popularity_dict (ranked_tsv f) in
  (∀ ignore cldr_dict t c,
     passes_all_filters a popularity c = false →
     char_entries a ignore popularity cldr_dict c = [] ∧
     (process_char a ignore popularity cldr_dict t c = Ok t ∨
      is_Some (EMOJI_DATA c) ∧
      encode_utf8 c = Raise UnicodeEncodeError ∧
      process_char a ignore popularity cldr_dict t c =
        Raise UnicodeEncodeError)) ∧
  (∀ out k l x,
     gen_emoji_lexicon a f = Ok out → (k, l) ∈ out → x ∈ l →
     passes_all_filters a popularity (entry_emoji x) = true ∧
     (entry_emoji x ∈ dkeys (annotations f) ∨
      entry_emoji x ∈ dkeys (annotationsDerived f))).
Proof.
  intros pop. subst pop. split.
  - intros ign d t c Hp. split; [unfold char_entries; by rewrite Hp|].
    rewrite process_char_filters, Hp.
    destruct (EMOJI_DATA c) as [status|]; [|by left].
    destruct (encode_utf8 c) as [code|e] eqn:Henc; simpl; [by left|].
    apply encode_utf8_error in Henc as ->. right. split; [by eexists | done].
  - intros out k l x Hout Hin Hx.
    destruct (out_entry_origin _ _ _ _ _ _ Hout Hin Hx)
      as (d & c & Hd & Hc & Hp & ->).
    assert (∀ pop, entry_emoji (shape (export_base_rank a) (suggest pop c)) = c)
      as -> by (intros ?; unfold shape; by destruct (export_base_rank a)).
    split; [done|]. destruct Hd as [->| ->]; [by left | by right].
Qed.

(** C8. Two runs on the same inputs that differ only in [verbose] return
    the same table (or raise the same exception): [verbose] decides only
    whether the two progress bars and the number of keywords are shown. *)
Theorem verbose_changes_only_the_display a f b b' :
  gen_emoji_lexicon (with_verbose b a) f =
    gen_emoji_lexicon (with_verbose b' a) f ∧
  (snd <$> run (with_verbose false a) f =
     (λ _, []) <$> gen_emoji_lexicon a f) ∧
  (snd <$> run (with_verbose true a) f =
     (λ out, [ProgressBar (lit "annotations") (length (annotations f));
              ProgressBar (lit "annotationsDerived")
                (length (annotationsDerived f));
              PrintTotal (length out)]) <$> gen_emoji_lexicon a f).
Proof.
  unfold gen_emoji_lexicon, run, ranked.
  change (linked (with_verbose b a) f) with (linked a f).
  change (linked (with_verbose b' a) f) with (linked a f).
  change (linked (with_verbose false a) f) with (linked a f).
  change (linked (with_verbose true a) f) with (linked a f).
  destruct (linked a f) as [t|]; simpl; [|done].
  split_and!; [done..|]. do 4 f_equal.
  unfold shaped, view. by rewrite !length_fmap.
Qed.

(** C9. A limit of 0 is no limit: with [num_emojis=0] no character is
    filtered by rank, with [emojis_per_keyword=0] no list is cut, and in
    both cases the run returns and prints what it does for [None]. *)
Theorem zero_limits_are_off a f :
  run (with_num_emojis (Some 0) a) f = run (with_num_emojis None a) f ∧
  run (with_emojis_per_keyword (Some 0) a) f =
    run (with_emojis_per_keyword None a) f ∧
  (∀ emoji_rank, over_limit (Some 0) emoji_rank = false) ∧
  (∀ emojis, sort_and_cap (Some 0) emojis = sort_by_key emojis).
Proof. split_and!; reflexivity. Qed.

(** C10. An [ignore_keywords] that is neither a string nor a list gives
    the empty ignore list without raising, so the run is the run with
    [ignore_keywords=[]] and drops no keyword for being ignored. *)
Theorem other_ignore_keywords_ignore_nothing a f o :
  (∀ s, o ≠ PStr s) → (∀ items, o ≠ PList items) →
  keywords_to_ignore o = Ok [] ∧
  run (with_ignore_keywords o a) f =
    run (with_ignore_keywords (PList []) a) f ∧
  ∀ phrases,
    keywords_of [] phrases =
      filter (λ kw, single_word kw = true) (str_lower <$> phrases).
Proof.
  intros Hstr Hlist.
  assert (keywords_to_ignore o = Ok []) as Hign.
  { destruct o; try done; [by destruct (Hstr s) | by destruct (Hlist items)]. }
  split_and!; [done| |].
  - unfold run, ranked, linked, scanned. simpl. by rewrite Hign.
  - intros phrases. unfold keywords_of.
    apply list_filter_iff. intros kw. split; [by intros [? _]|].
    intros ?. split; [done | apply not_elem_of_nil].
Qed.
End returned_table.

(** * The properties at the sample files *)

Import Sample.

(** C5. The scan keeps the ignored keyword out, in whatever case the
    annotations have it, but the plural linkage brings it back: with
    [ignore_keywords="Cats"], the cat face annotated [cat], the grinning
    cat annotated [CAT] and [Cats], and the noun [Cat] with the plural
    [Cats], the scanned table has the key [cat] only and the returned
    table has the key [cats] as well. *)
Theorem ignored_keyword_returns_as_plural :
  let a := with_ignore_keywords (PStr (lit "Cats")) with_ranks in
  keywords_to_ignore (ignore_keywords a) = Ok [lit "cats"] ∧
  view <$> scanned a cats =
    Ok [(lit "cat",
         [{| emoji := cat_face; is_base := false; rank := Some 20 |};
          {| emoji := grinning_cat; is_base := false; rank := Some 50 |}])] ∧
  plurals_to_singulars_dict (nouns_json cats) = Ok [(lit "cats", lit "cat")] ∧
  gen_emoji_lexicon a cats =
    Ok [(lit "cat",
         [entry_of cat_face (Some 20); entry_of grinning_cat (Some 50)]);
        (lit "cats",
         [entry_of cat_face (Some 20); entry_of grinning_cat (Some 50)])].
Proof. by vm_compute. Qed.

(** C7. For a character that passes the filters, the keys added are
    exactly the lowercased phrases of its [default] list that are one word
    and not ignored, a phrase being one word when it is a run of
    non-whitespace with whitespace only before and after it.  In the
    example of the specification (ranks 1 for the grinning face and 50 for
    the grinning cat, the grinning face annotated with [grinning face] and
    [happy], no limit) the table returned is [happy] with the one emoji,
    so it has no key [grinning], [face] or [grinning face]; with
    [export_base_rank] the entry also shows that the emoji is no modifier
    base and has rank 1. *)
Theorem single_word_phrases_become_keys :
  (∀ (P : Platform) a ignore popularity cldr_dict t c ann phrases,
     unshared t → passes_all_filters a popularity c = true →
     dget cldr_dict c = Some ann → a_default ann = Some phrases →
     ∃ t', process_char a ignore popularity cldr_dict t c = Ok t' ∧
       ∀ k, k ∈ dkeys (keyword_dict t') ↔
            k ∈ dkeys (keyword_dict t) ∨
            ∃ p, p ∈ phrases ∧ k = str_lower p ∧
                 single_word k = true ∧ k ∉ ignore) ∧
  (∀ (P : Platform) s,
     single_word s = true ↔
     ∃ pre w post, s = pre ++ w ++ post ∧ w ≠ [] ∧
       Forall (λ c, isspace c = true) pre ∧
       Forall (λ c, isspace c = false) w ∧
       Forall (λ c, isspace c = true) post) ∧
  passes_all_filters defaults (popularity_dict (ranked_tsv happy)) grinning
    = true ∧
  gen_emoji_lexicon defaults happy = Ok [(lit "happy", [EmojiOnly grinning])] ∧
  gen_emoji_lexicon with_ranks happy =
    Ok [(lit "happy",
         [Full {| emoji := grinning; is_base := false; rank := Some 1 |}])] ∧
  ∀ out, (gen_emoji_lexicon defaults happy = Ok out ∨
          gen_emoji_lexicon with_ranks happy = Ok out) →
    dget out (lit "grinning") = None ∧ dget out (lit "face") = None ∧
    dget out (lit "grinning face") = None.
Proof.
  split_and!.
  - intros P a ignore popularity cldr_dict t c ann phrases Ht Hp Hd Hann.
    destruct (qualifying_character_keys a ignore popularity cldr_dict t c ann
      phrases Ht Hp Hd Hann) as (t' & Ht' & _ & Hkeys).
    by exists t'.
  - intros P s. unfold single_word. rewrite Nat.eqb_eq, split_one.
    split; intros (pre & w & post & ?); exists pre, w, post; tauto.
  - by vm_compute.
  - by vm_compute.
  - by vm_compute.
  - intros out [Hout|Hout]; vm_compute in Hout; by injection Hout as <-.
Qed.

(** C1 at the list of [happy], which ends with an emoji of no rank. *)
Lemma lists_are_sorted_by_rank_witness :
  let happy_list :=
    [entry_of grinning (Some 1); entry_of grinning_cat (Some 50);
     entry_of smiling None] in
  let pop := popularity_dict (ranked_tsv zoo) in
  gen_emoji_lexicon with_ranks zoo = Ok zoo_ranked ∧
  (lit "happy", happy_list) ∈ zoo_ranked ∧
  StronglySorted (λ x y, key_le (entry_key pop x) (entry_key pop y)) happy_list.
Proof.
  intros happy_list pop.
  assert (gen_emoji_lexicon with_ranks zoo = Ok zoo_ranked) as H1
    by (by vm_compute).
  assert ((lit "happy", happy_list) ∈ zoo_ranked) as H2 by left.
  split_and!; [exact H1 | exact H2 |].
  exact (proj1 (lists_are_sorted_by_rank with_ranks zoo _ _ _ H1 H2)).
Defined.

(** C2 at the list of [cats], which the plural linkage shares with [cat]:
    of its three entries the two of rank 20 are kept. *)
Lemma emojis_per_keyword_keeps_lowest_ranked_witness :
  let a := with_emojis_per_keyword (Some 2) with_ranks in
  let cats_list := [entry_of cat_face (Some 20); entry_of cat_face (Some 20)] in
  0 < 2 ∧ emojis_per_keyword a = Some 2 ∧
  gen_emoji_lexicon a zoo = Ok zoo_top2 ∧
  (lit "cats", cats_list) ∈ zoo_top2 ∧
  Z.of_nat (length cats_list) ≤ 2.
Proof.
  intros a cats_list.
  assert (gen_emoji_lexicon a zoo = Ok zoo_top2) as H1 by (by vm_compute).
  assert ((lit "cats", cats_list) ∈ zoo_top2) as H2.
  { apply list_elem_of_lookup. by exists 8%nat. }
  split_and!; [lia | reflexivity | exact H1 | exact H2 |].
  exact (proj1 (emojis_per_keyword_keeps_lowest_ranked a zoo 2 _ _ _
    ltac:(lia) eq_refl H1 H2)).
Defined.

(** C3 at the second entry of [faces], a key made by the plural linkage. *)
Lemma num_emojis_bounds_every_rank_witness :
  let a := with_num_emojis (Some 20) with_ranks in
  let faces_list := [entry_of grinning (Some 1); entry_of cat_face (Some 20)] in
  0 < 20 ∧ num_emojis a = Some 20 ∧
  gen_emoji_lexicon a zoo = Ok zoo_first20 ∧
  (lit "faces", faces_list) ∈ zoo_first20 ∧
  entry_of cat_face (Some 20) ∈ faces_list ∧
  ∃ r, dget (popularity_dict (ranked_tsv zoo)) cat_face = Some r ∧ r ≤ 20.
Proof.
  intros a faces_list.
  assert (gen_emoji_lexicon a zoo = Ok zoo_first20) as H1 by (by vm_compute).
  assert ((lit "faces", faces_list) ∈ zoo_first20) as H2.
  { apply list_elem_of_lookup. by exists 8%nat. }
  assert (entry_of cat_face (Some 20) ∈ faces_list) as H3 by (right; left).
  split_and!; [lia | reflexivity | exact H1 | exact H2 | exact H3 |].
  destruct (num_emojis_bounds_every_rank a zoo 20 _ _ _ _
    ltac:(lia) eq_refl H1 H2 H3) as (r & Hr & Hle & _).
  exists r. by split.
Defined.

(** C4 at the nouns of [zoo]: [cats] and [faces] are filled in, [dogs] is
    not, and every key of the scan keeps its list. *)
Lemma plural_linkage_only_fills_gaps_witness :
  scanned defaults zoo = Ok zoo_scanned ∧
  linked defaults zoo = Ok zoo_linked ∧
  heap zoo_linked = heap zoo_scanned ∧
  ∀ k r, dget (keyword_dict zoo_scanned) k = Some r →
         dget (keyword_dict zoo_linked) k = Some r.
Proof.
  assert (scanned defaults zoo = Ok zoo_scanned) as H1 by (by vm_compute).
  assert (linked defaults zoo = Ok zoo_linked) as H2 by (by vm_compute).
  split_and!; [exact H1 | exact H2 | |];
    destruct (plural_linkage_only_fills_gaps defaults zoo _ _ H1 H2)
      as (ps & _ & Hheap & _ & _ & Hold & _); [exact Hheap | exact Hold].
Defined.

(** C6 at the light thumbs up, a modifier base of two code points, and at
    the first entry of [happy]. *)
Lemma only_characters_passing_all_filters_contribute_witness :
  let pop := popularity_dict (ranked_tsv zoo) in
  passes_all_filters with_ranks pop thumbs_up_light = false ∧
  char_entries with_ranks [] pop (annotations zoo) thumbs_up_light = [] ∧
  gen_emoji_lexicon with_ranks zoo = Ok zoo_ranked ∧
  passes_all_filters with_ranks pop grinning = true.
Proof.
  intros pop.
  assert (passes_all_filters with_ranks pop thumbs_up_light = false) as H0
    by (by vm_compute).
  assert (gen_emoji_lexicon with_ranks zoo = Ok zoo_ranked) as H1
    by (by vm_compute).
  destruct (only_characters_passing_all_filters_contribute with_ranks zoo)
    as [Hstep Hout].
  split_and!; [exact H0 | | exact H1 |].
  - exact (proj1 (Hstep [] (annotations zoo) empty_tables thumbs_up_light H0)).
  - refine (proj1 (Hout zoo_ranked (lit "happy") _
      (entry_of grinning (Some 1)) H1 _ _)); left.
Defined.

(** C7 at the example: the scan of the grinning face from the empty table. *)
Lemma single_word_phrases_become_keys_witness :
  unshared empty_tables ∧
  passes_all_filters defaults (popularity_dict (ranked_tsv happy)) grinning
    = true ∧
  dget (annotations happy) grinning
    = Some (words [lit "grinning face"; lit "happy"]) ∧
  ∃ t', process_char defaults [] (popularity_dict (ranked_tsv happy))
          (annotations happy) empty_tables grinning = Ok t' ∧
    (lit "happy" ∈ dkeys (keyword_dict t')) ∧
    (lit "grinning face" ∉ dkeys (keyword_dict t')).
Proof.
  assert (passes_all_filters defaults (popularity_dict (ranked_tsv happy))
            grinning = true) as Hp by (by vm_compute).
  assert (dget (annotations happy) grinning
            = Some (words [lit "grinning face"; lit "happy"])) as Hd
    by (by vm_compute).
  split_and!; [exact valid_empty | exact Hp | exact Hd |].
  destruct (proj1 single_word_phrases_become_keys platform defaults []
    (popularity_dict (ranked_tsv happy)) (annotations happy) empty_tables
    grinning _ _ valid_empty Hp Hd eq_refl) as (t' & Ht' & Hkeys).
  exists t'. split_and!; [exact Ht'| |].
  - apply Hkeys. right. exists (lit "happy"). split_and!.
    + right. left.
    + by vm_compute.
    + by vm_compute.
    + apply not_elem_of_nil.
  - intros [[]%elem_of_nil|(p & Hp' & Heq & Hw & _)]%Hkeys.
    by vm_compute in Hw.
Defined.

(** C10 at a set of strings. *)
Lemma other_ignore_keywords_ignore_nothing_witness :
  let o := PSet [ItemStr (lit "run")] in
  (∀ s, o ≠ PStr s) ∧ (∀ items, o ≠ PList items) ∧
  keywords_to_ignore o = Ok [] ∧
  run (with_ignore_keywords o defaults) zoo =
    run (with_ignore_keywords (PList []) defaults) zoo.
Proof.
  assert (∀ s, PSet [ItemStr (lit "run")] ≠ PStr s) as H1 by done.
  assert (∀ items, PSet [ItemStr (lit "run")] ≠ PList items) as H2 by done.
  split_and!; [exact H1 | exact H2 | |].
  - exact (proj1 (other_ignore_keywords_ignore_nothing defaults zoo _ H1 H2)).
  - exact (proj1 (proj2
      (other_ignore_keywords_ignore_nothing defaults zoo _ H1 H2))).
Defined.

(** ** More runs *)

(** The chequered flag encodes to the ignored code. *)
Example encode_chequered_flag :
  encode_utf8 chequered_flag = Ok [Byte.xf0; Byte.x9f; Byte.x8f; Byte.x81].
Proof. reflexivity. Qed.

(** A surrogate in the emoji data cannot be encoded. *)
Example encode_surrogate : encode_utf8 [55357%N] = Raise UnicodeEncodeError.
Proof. reflexivity. Qed.

(** [faces] is no key of the scan, and still [facets] is filled in from
    it: the pair of [faces] and [face] comes first and makes it a key. *)
Example chained_plurals :
  plurals_to_singulars_dict (nouns_json zoo) =
    Ok [(lit "cats", lit "cat"); (lit "faces", lit "face");
        (lit "dogs", lit "dog"); (lit "facets", lit "faces")] ∧
  dget (keyword_dict zoo_scanned) (lit "faces") = None ∧
  dget (keyword_dict zoo_linked) (lit "facets") =
    dget (keyword_dict zoo_linked) (lit "face") ∧
  dget (keyword_dict zoo_linked) (lit "dogs") = None.
Proof. by vm_compute. Qed.

(** A negative [emojis_per_keyword] cuts from the end at every visit: the
    list of [happy] loses one entry, the list that [face], [faces] and
    [facets] share loses three. *)
Example negative_limit_cuts_once_per_key :
  let out :=
    table_of (gen_emoji_lexicon
                (with_emojis_per_keyword (Some (-1)) with_ranks) zoo) in
  dget out (lit "happy") =
    Some [entry_of grinning (Some 1); entry_of grinning_cat (Some 50)] ∧
  dget zoo_ranked (lit "face") =
    Some [entry_of grinning (Some 1); entry_of cat_face (Some 20);
          entry_of smiling None] ∧
  dget out (lit "face") = Some [].
Proof. by vm_compute. Qed.

(** An annotation without a [default] list stops the run. *)
Example missing_default_raises :
  gen_emoji_lexicon defaults
    {| ranked_tsv := [];
       annotations :=
         [(grinning, {| a_default := None; a_tts := Some [lit "grin"] |})];
       annotationsDerived := []; nouns_json := [] |}
  = Raise (KeyError (lit "default")).
Proof. reflexivity. Qed.

(** So does a list of [ignore_keywords] that holds a number. *)
Example ignore_list_of_numbers_raises :
  gen_emoji_lexicon (with_ignore_keywords (PList [ItemInt 1]) defaults) happy
  = Raise AttributeError.
Proof. reflexivity. Qed.

(** * More properties of the run *)

(** ** The exceptions *)

Lemma utf8_char_Some c : is_Some (utf8_char c) ↔ scalar_value c.
Proof.
  unfold utf8_char, scalar_value.
  repeat match goal with
  | |- context [(?x <? ?y)%N] =>
      destruct (N.ltb_spec x y)
  | |- context [(?x <=? ?y)%N] =>
      destruct (N.leb_spec x y)
  end; simpl; (split; [intros [? ?]; by try lia | intros ?; by try lia; eauto]).
Qed.

(** [encode] succeeds on the strings without a surrogate. *)
Lemma encode_utf8_Ok s : (∃ b, encode_utf8 s = Ok b) ↔ Forall scalar_value s.
Proof.
  induction s as [|c s IH]; simpl.
  - split; [constructor | by eauto].
  - rewrite Forall_cons, <-IH, <-utf8_char_Some.
    destruct (utf8_char c) as [b|]; simpl.
    + destruct (encode_utf8 s) as [bs|]; simpl.
      * split; [by eauto | by eauto].
      * split; [by intros [? ?] | by intros [_ [? ?]]].
    + split; [by intros [? ?] | by intros [[? ?] _]].
Qed.

Lemma for_each_result {A S} (body : S → A → result S) (err : A → option exn)
    (xs : list A) (s0 : S) :
  (∀ s x, match err x with
          | Some e => body s x = Raise e
          | None => ∃ s', body s x = Ok s'
          end) →
  match first_error err xs with
  | Some e => for_each body xs s0 = Raise e
  | None => ∃ s', for_each body xs s0 = Ok s'
  end.
Proof.
  intros Hbody. unfold first_error. revert s0.
  induction xs as [|x xs IH]; intros s0; csimpl; [by eauto|].
  specialize (Hbody s0 x). destruct (err x) as [e|]; csimpl.
  - by rewrite Hbody.
  - destruct Hbody as [s' ->]. apply IH.
Qed.

Section exceptions.
Context `{Platform}.
Implicit Types (a : args) (f : files) (t : tables).

(** The ignore list: the strings lowercased, in their order, or
    [AttributeError] when an item of the list is no string. *)
Lemma keywords_to_ignore_result o :
  keywords_to_ignore o =
    match ignore_error o with
    | Some e => Raise e
    | None => Ok (str_lower <$> strings_of o)
    end.
Proof.
  unfold keywords_to_ignore, ignore_error, strings_of.
  destruct o as [|s|z|items|items|items]; try done.
  induction items as [|k items IH]; [done|].
  destruct k as [s|z|]; [|done..].
  change (mapM item_lower (ItemStr s :: items))
    with (mapM item_lower items ≫= λ k, Ok (str_lower s :: k)).
  rewrite IH. csimpl. by destruct (forallb is_str items).
Qed.

Lemma process_char_result a ign pop d t c :
  match char_error a pop d c with
  | Some e => process_char a ign pop d t c = Raise e
  | None => ∃ t', process_char a ign pop d t c = Ok t'
  end.
Proof.
  rewrite process_char_filters. unfold char_error, getitem.
  destruct (passes_all_filters a pop c).
  - destruct (dget d c) as [ann|]; simpl; [|done].
    destruct (a_default ann); by eauto.
  - destruct (EMOJI_DATA c); [|by eauto].
    destruct (encode_utf8 c); simpl; by eauto.
Qed.

Lemma process_file_result a ign pop d t :
  match first_error (char_error a pop d) (dkeys d) with
  | Some e => process_file a ign pop d t = Raise e
  | None => ∃ t', process_file a ign pop d t = Ok t'
  end.
Proof.
  unfold process_file. apply for_each_result. intros s x.
  apply process_char_result.
Qed.

Lemma plurals_to_singulars_dict_result noun_data :
  match first_error (noun_error noun_data) (dkeys noun_data) with
  | Some e => plurals_to_singulars_dict noun_data = Raise e
  | None => plurals_to_singulars_dict noun_data =
              Ok (foldl (λ d kv, dset d kv.1 kv.2) [] (noun_pairs noun_data))
  end.
Proof.
  unfold plurals_to_singulars_dict, noun_pairs, first_error.
  generalize (@nil (str * str)) as d0.
  induction (dkeys noun_data) as [|row rows IH]; intros d0; csimpl; [done|].
  unfold noun_error at 1, getitem.
  destruct (dget noun_data row) as [n|]; csimpl; [|done].
  destruct (plural n) as [p|]; csimpl; [|done].
  case_bool_decide; csimpl; apply IH.
Qed.
End exceptions.

Lemma first_error_is_Some {A} (err : A → option exn) (xs : list A) x :
  x ∈ xs → is_Some (err x) → is_Some (first_error err xs).
Proof.
  unfold first_error. intros Hx [e He]. apply head_is_Some.
  intros Hnil. assert (e ∈ omap err xs) as Hin.
  { apply list_elem_of_omap. by exists x. }
  rewrite Hnil in Hin. by apply elem_of_nil in Hin.
Qed.

Lemma first_error_elem {A} (err : A → option exn) (xs : list A) e :
  first_error err xs = Some e → ∃ x, x ∈ xs ∧ err x = Some e.
Proof.
  unfold first_error. intros He%head_Some_elem_of.
  by apply list_elem_of_omap in He.
Qed.

Lemma first_error_None {A} (err : A → option exn) (xs : list A) :
  first_error err xs = None ↔ ∀ x, x ∈ xs → err x = None.
Proof.
  unfold first_error. rewrite head_None. split.
  - intros Hnil x Hx. destruct (err x) as [e|] eqn:He; [|done].
    assert (e ∈ omap err xs) as Hin by (apply list_elem_of_omap; eauto).
    rewrite Hnil in Hin. by apply elem_of_nil in Hin.
  - intros Hall. destruct (omap err xs) as [|e l] eqn:Ho; [done|].
    assert (e ∈ omap err xs) as (x & Hx & He)%list_elem_of_omap
      by (rewrite Ho; left).
    rewrite (Hall x Hx) in He. done.
Qed.

Section when_a_run_raises.
Context `{Platform}.
Implicit Types (a : args) (f : files) (t : tables).

Lemma gen_emoji_lexicon_result a f :
  match run_error a f with
  | Some e => gen_emoji_lexicon a f = Raise e
  | None => ∃ out, gen_emoji_lexicon a f = Ok out
  end.
Proof.
  unfold run_error, gen_emoji_lexicon, run, ranked, linked, scanned.
  rewrite keywords_to_ignore_result.
  destruct (ignore_error (ignore_keywords a)) as [e|]; csimpl; [done|].
  set (ign := str_lower <$> strings_of (ignore_keywords a)).
  set (pop := popularity_dict (ranked_tsv f)).
  pose proof (process_file_result a ign pop (annotations f) empty_tables) as H1.
  destruct (first_error _ (dkeys (annotations f))) as [e|]; csimpl.
  { by rewrite H1. }
  destruct H1 as [t1 ->]. csimpl.
  pose proof (process_file_result a ign pop (annotationsDerived f) t1) as H2.
  destruct (first_error _ (dkeys (annotationsDerived f))) as [e|]; csimpl.
  { by rewrite H2. }
  destruct H2 as [t2 ->]. csimpl.
  pose proof (plurals_to_singulars_dict_result (nouns_json f)) as H3.
  destruct (first_error _ (dkeys (nouns_json f))) as [e|]; rewrite H3; csimpl.
  - done.
  - by eauto.
Qed.

(** X1. A run raises the first exception of the ignore list, of the
    characters of the two CLDR files, and of the rows of the noun data, in
    this order, and returns a table exactly when there is none. *)
Theorem run_raises_first_error a f :
  (∀ e, gen_emoji_lexicon a f = Raise e ↔ run_error a f = Some e) ∧
  ((∃ out, gen_emoji_lexicon a f = Ok out) ↔ run_error a f = None).
Proof.
  pose proof (gen_emoji_lexicon_result a f) as Hrun.
  destruct (run_error a f) as [e0|].
  - rewrite Hrun. split.
    + intros e. split; by intros [= ->].
    + split; [by intros [? ?] | done].
  - destruct Hrun as [out ->]. split.
    + intros e. split; done.
    + split; by eauto.
Qed.

(** X2. A run returns a table when every item of an [ignore_keywords]
    list is a string, the characters of the files that are in the emoji
    data have no surrogate, every annotation has a [default] list and
    every noun a [plural]. *)
Theorem well_formed_inputs_return a f :
  ignore_error (ignore_keywords a) = None →
  (∀ c, c ∈ dkeys (annotations f) ∨ c ∈ dkeys (annotationsDerived f) →
        is_Some (EMOJI_DATA c) → Forall scalar_value c) →
  (∀ c ann, dget (annotations f) c = Some ann ∨
            dget (annotationsDerived f) c = Some ann →
            is_Some (a_default ann)) →
  (∀ row n, dget (nouns_json f) row = Some n → is_Some (plural n)) →
  ∃ out, gen_emoji_lexicon a f = Ok out.
Proof.
  intros Hign Henc Hdef Hpl.
  pose proof (gen_emoji_lexicon_result a f) as Hrun.
  assert (run_error a f = None) as Hnone; [|by rewrite Hnone in Hrun].
  unfold run_error. rewrite Hign. simpl.
  assert (∀ d, (d = annotations f ∨ d = annotationsDerived f) →
    first_error (char_error a (popularity_dict (ranked_tsv f)) d) (dkeys d)
      = None) as Hfile.
  { intros d Hd. apply first_error_None. intros c Hc. unfold char_error.
    destruct (passes_all_filters _ _ c).
    - apply dkeys_is_Some in Hc as [ann Hann]. rewrite Hann.
      destruct (Hdef c ann) as [kws ->]; [|done].
      destruct Hd as [->| ->]; by eauto.
    - destruct (EMOJI_DATA c) as [status|] eqn:Hst; [|done].
      assert (Forall scalar_value c) as [b ->]%encode_utf8_Ok; [|done].
      apply Henc; [|by rewrite Hst]. destruct Hd as [->| ->]; by eauto. }
  rewrite !Hfile by eauto. simpl.
  apply first_error_None. intros row Hrow. unfold noun_error.
  apply dkeys_is_Some in Hrow as [n Hn]. rewrite Hn.
  by destruct (Hpl row n Hn) as [p ->].
Qed.

(** X3. A character that passes the filters and has no [default] list
    stops the run: no table is returned, whatever else the files hold. *)
Theorem missing_default_stops_the_run a f d c ann :
  d = annotations f ∨ d = annotationsDerived f →
  dget d c = Some ann → a_default ann = None →
  passes_all_filters a (popularity_dict (ranked_tsv f)) c = true →
  ∃ e, gen_emoji_lexicon a f = Raise e.
Proof.
  intros Hd Hc Hann Hp.
  pose proof (gen_emoji_lexicon_result a f) as Hrun.
  assert (is_Some (run_error a f)) as [e He];
    [|rewrite He in Hrun; by eauto].
  assert (is_Some (first_error
    (char_error a (popularity_dict (ranked_tsv f)) d) (dkeys d))) as Hfirst.
  { apply (first_error_is_Some _ _ c).
    - apply dkeys_is_Some. by eauto.
    - unfold char_error. rewrite Hp, Hc, Hann. by eauto. }
  unfold run_error, or_else.
  destruct (ignore_error _); [by eauto|].
  destruct Hd as [->| ->].
  - destruct Hfirst as [e ->]. by eauto.
  - destruct (first_error _ (dkeys (annotations f))); [by eauto|].
    destruct Hfirst as [e ->]. by eauto.
Qed.

(** X4. The noun data is read after the scan: when the scan succeeds, a
    row without [plural] makes the run raise [KeyError] for [plural], also
    a row that would link nothing. *)
Theorem noun_without_plural_raises a f t row n :
  scanned a f = Ok t →
  dget (nouns_json f) row = Some n → plural n = None →
  gen_emoji_lexicon a f = Raise (KeyError (lit "plural")).
Proof.
  intros Hs Hrow Hn.
  unfold gen_emoji_lexicon, run, ranked, linked. rewrite Hs. csimpl.
  pose proof (plurals_to_singulars_dict_result (nouns_json f)) as Hres.
  destruct (first_error _ (dkeys (nouns_json f))) as [e|] eqn:He.
  - rewrite Hres. csimpl.
    apply first_error_elem in He as (row' & Hin & Herr).
    unfold noun_error in Herr. apply dkeys_is_Some in Hin as [n' Hn'].
    rewrite Hn' in Herr. destruct (plural n'); by simplify_eq.
  - exfalso. eapply first_error_None in He.
    + unfold noun_error in He. by rewrite Hrow, Hn in He.
    + apply dkeys_is_Some. by eauto.
Qed.

(** X5. [ignore_keywords]: a string gives its lowercase form, a list of
    strings their lowercase forms in the same order, and a list with an
    item that is no string raises [AttributeError] before any file is
    scanned. *)
Theorem ignore_keywords_are_lowercased a f :
  (∀ s, keywords_to_ignore (PStr s) = Ok [str_lower s]) ∧
  (∀ ss, keywords_to_ignore (PList (ItemStr <$> ss)) = Ok (str_lower <$> ss)) ∧
  (∀ items k, k ∈ items → is_str k = false →
     keywords_to_ignore (PList items) = Raise AttributeError ∧
     gen_emoji_lexicon (with_ignore_keywords (PList items) a) f =
       Raise AttributeError).
Proof.
  split_and!.
  - done.
  - intros ss. rewrite keywords_to_ignore_result. simpl.
    assert (forallb is_str (ItemStr <$> ss) = true) as ->.
    { induction ss; [done|]. by csimpl. }
    do 2 f_equal. induction ss as [|s ss IH]; [done|]. csimpl. by rewrite IH.
  - intros items k Hk Hstr.
    assert (ignore_error (PList items) = Some AttributeError) as Herr.
    { simpl. destruct (forallb is_str items) eqn:Hall; [|done].
      rewrite forallb_forall in Hall. apply list_elem_of_In, Hall in Hk.
      congruence. }
    split; [by rewrite keywords_to_ignore_result, Herr|].
    pose proof (gen_emoji_lexicon_result
      (with_ignore_keywords (PList items) a) f) as Hrun.
    unfold run_error in Hrun. simpl ignore_keywords in Hrun.
    by rewrite Herr in Hrun.
Qed.
End when_a_run_raises.

(** ** Dictionaries built by a loop *)

Lemma dget_foldl_dset {V} (d0 : list (str * V)) (kvs : list (str * V)) k :
  dget (foldl (λ d kv, dset d kv.1 kv.2) d0 kvs) k =
    match last (filter (λ kv, kv.1 = k) kvs) with
    | Some kv => Some kv.2
    | None => dget d0 k
    end.
Proof.
  induction kvs as [|kv kvs IH] using rev_ind; [done|].
  rewrite foldl_app, filter_app, filter_cons, filter_nil. simpl.
  rewrite dget_dset. case_decide.
  - by rewrite last_snoc.
  - by rewrite app_nil_r.
Qed.

Lemma first_occurrences_snoc ks k :
  first_occurrences (ks ++ [k]) =
    if decide (k ∈ ks) then first_occurrences ks else first_occurrences ks ++ [k].
Proof.
  unfold first_occurrences. rewrite reverse_snoc. simpl.
  destruct (decide_rel elem_of k (reverse ks)) as [Hin|Hin];
    rewrite elem_of_reverse in Hin.
  - by rewrite decide_True.
  - by rewrite decide_False, reverse_cons.
Qed.

Lemma first_occurrences_elem ks k : k ∈ first_occurrences ks ↔ k ∈ ks.
Proof.
  unfold first_occurrences.
  by rewrite elem_of_reverse, elem_of_remove_dups, elem_of_reverse.
Qed.

Lemma first_occurrences_NoDup ks : NoDup (first_occurrences ks).
Proof.
  unfold first_occurrences. rewrite reverse_Permutation.
  apply NoDup_remove_dups.
Qed.

(** The keys of a dictionary filled by a loop are in the order in which
    the loop first sets them. *)
Lemma dkeys_foldl {V A} (g : list (str * V) → A → list (str * V))
    (key : A → str) (xs : list A) :
  (∀ d x, dkeys (g d x) =
          if decide (key x ∈ dkeys d) then dkeys d else dkeys d ++ [key x]) →
  dkeys (foldl g [] xs) = first_occurrences (key <$> xs).
Proof.
  intros Hg. induction xs as [|x xs IH] using rev_ind; [done|].
  rewrite foldl_app, fmap_app. csimpl.
  rewrite first_occurrences_snoc, Hg, IH.
  destruct (decide (key x ∈ first_occurrences (key <$> xs))) as [Hin|Hin];
    rewrite first_occurrences_elem in Hin.
  - by rewrite decide_True.
  - by rewrite decide_False.
Qed.

Lemma dkeys_dset_decide {V} (d : list (str * V)) k v :
  dkeys (dset d k v) = if decide (k ∈ dkeys d) then dkeys d else dkeys d ++ [k].
Proof.
  rewrite dkeys_dset. destruct (dmem d k) eqn:Hm.
  - apply dmem_true, dkeys_is_Some in Hm. by rewrite decide_True.
  - apply dmem_false, dget_None in Hm. by rewrite decide_False.
Qed.

Section loops.
Context `{Platform}.
Implicit Types (a : args) (f : files) (t : tables).

(** X6. The rank of an emoji is that of the last row of the ranking that
    names it, and an emoji that no row names has none. *)
Theorem popularity_last_row_wins rows c :
  dget (popularity_dict rows) c = snd <$> last (filter (λ row, row.1 = c) rows) ∧
  (c ∉ rows.*1 → dget (popularity_dict rows) c = None) ∧
  dkeys (popularity_dict rows) = first_occurrences rows.*1.
Proof.
  unfold popularity_dict.
  assert (dget (foldl (λ d row, dset d row.1 row.2) [] rows) c
          = snd <$> last (filter (λ row, row.1 = c) rows)) as Hget.
  { rewrite dget_foldl_dset. by destruct (last _). }
  split_and!; [done| |].
  - intros Hc. rewrite Hget.
    destruct (filter _ rows) as [|row l] eqn:Hf; [done|].
    assert (row ∈ filter (λ row, row.1 = c) rows) as [Hr Hin]%list_elem_of_filter
      by (rewrite Hf; left).
    destruct Hc. apply list_elem_of_fmap. by exists row.
  - apply (dkeys_foldl _ fst). intros d x. apply dkeys_dset_decide.
Qed.

(** X7. The noun map has, for a plural, the noun of the last row with
    that plural, both lowercased; its keys are in the order of the rows
    that first have them; and only the rows whose plural is exactly
    [isPlural] are left out. *)
Theorem noun_map_last_row_wins noun_data ps :
  plurals_to_singulars_dict noun_data = Ok ps →
  (∀ p, dget ps p =
        snd <$> last (filter (λ kv, kv.1 = p) (noun_pairs noun_data))) ∧
  dkeys ps = first_occurrences (noun_pairs noun_data).*1 ∧
  (∀ p s, (p, s) ∈ noun_pairs noun_data ↔
     ∃ row n pl, row ∈ dkeys noun_data ∧ dget noun_data row = Some n ∧
       plural n = Some pl ∧ pl ≠ lit "isPlural" ∧
       p = str_lower pl ∧ s = str_lower row).
Proof.
  intros Hps.
  pose proof (plurals_to_singulars_dict_result noun_data) as Hres.
  destruct (first_error _ _); rewrite Hps in Hres; [done|].
  injection Hres as ->. split_and!.
  - intros p. rewrite dget_foldl_dset. by destruct (last _).
  - apply (dkeys_foldl _ fst). intros d x. apply dkeys_dset_decide.
  - intros p s. unfold noun_pairs. rewrite list_elem_of_omap. split.
    + intros (row & Hrow & Hpair).
      destruct (dget noun_data row) as [n|] eqn:Hn; [|done]. csimpl in Hpair.
      destruct (plural n) as [pl|] eqn:Hpl; [|done]. csimpl in Hpair.
      case_bool_decide; simplify_eq. by exists row, n, pl.
    + intros (row & n & pl & Hrow & Hn & Hpl & Hne & -> & ->).
      exists row. split; [done|]. rewrite Hn. csimpl. rewrite Hpl. csimpl.
      by rewrite bool_decide_eq_true_2.
Qed.

(** X8. The table after the scan groups what the two files contribute:
    a keyword holds the suggestions contributed under it, in the order of
    the scan and with repetitions, and the keywords are in the order of
    their first contribution. *)
Theorem scan_groups_contributions a f t :
  scanned a f = Ok t →
  ∃ ign, keywords_to_ignore (ignore_keywords a) = Ok ign ∧
    dkeys (keyword_dict t) = first_occurrences (scan_entries a f ign).*1 ∧
    ∀ k, dget (view t) k =
         if decide (k ∈ (scan_entries a f ign).*1)
         then Some (collect k (scan_entries a f ign)) else None.
Proof.
  intros (ign & Hign & _ & Hv)%scanned_view. exists ign.
  split_and!; [done| |].
  - rewrite <-dkeys_view, Hv. unfold add_all.
    apply (dkeys_foldl _ fst). intros d x. apply dkeys_dset_decide.
  - intros k. rewrite Hv, dget_add_all. simpl.
    destruct (collect k (scan_entries a f ign)) as [|x l] eqn:Hc.
    + rewrite decide_False; [done|].
      intros ([k' x] & Hk & Hin)%list_elem_of_fmap. simpl in Hk. subst k'.
      apply collect_elem in Hin. rewrite Hc in Hin. by apply elem_of_nil in Hin.
    + rewrite decide_True; [done|].
      assert (x ∈ collect k (scan_entries a f ign)) as Hin%collect_elem
        by (rewrite Hc; left).
      apply list_elem_of_fmap. by exists (k, x).
Qed.
End loops.

(** ** The keys and the lists of the returned table *)

Section returned_lists.
Context `{Platform}.
Implicit Types (a : args) (f : files) (t : tables) (k : str).

Lemma linked_lists_nonempty a f t k r :
  linked a f = Ok t → (k, r) ∈ keyword_dict t → deref (heap t) r ≠ [].
Proof.
  intros (t0 & ps & Hs & _ & Hkd & Hh)%linked_inv Hin.
  apply scanned_view in Hs as (ign & Hign & [[Hk Hv] _] & Hview).
  rewrite Hh.
  assert (r ∈ dvalues (keyword_dict t0)) as Hr.
  { apply (link_all_values _ ps). rewrite <-Hkd. by eapply elem_of_dvalues. }
  unfold dvalues in Hr. apply list_elem_of_fmap in Hr as ([k0 r0] & -> & Hin0).
  simpl. apply dget_elem_NoDup in Hin0; [|done].
  pose proof (dget_view t0 k0) as Hg. rewrite Hin0, Hview, dget_add_all in Hg.
  destruct (collect k0 _); simpl in Hg; [done|].
  injection Hg as Hg. by rewrite <-Hg.
Qed.

Lemma link_all_keys (kd : list (str * nat)) (ps : list (str * str)) :
  ∃ added, dkeys (foldl link_plural kd ps) = dkeys kd ++ added ∧
    added `sublist_of` dkeys ps.
Proof.
  revert kd. induction ps as [|[p s] ps IH]; intros kd; cbn [foldl].
  { exists []. by rewrite app_nil_r. }
  destruct (IH (link_plural kd (p, s))) as (added & Hkeys & Hsub).
  destruct (link_plural_cases kd p s) as [Heq|(r & _ & _ & Heq)];
    rewrite Heq in Hkeys |- *.
  - exists added. split; [done|]. by apply sublist_cons.
  - exists (p :: added). split; [|by apply sublist_skip].
    rewrite Hkeys. unfold dkeys. by rewrite fmap_app, <-app_assoc.
Qed.

Lemma link_all_empty (ps : list (str * str)) : foldl link_plural [] ps = [].
Proof. induction ps as [|[p s] ps IH]; [done|]. by cbn. Qed.

(** X9. Unless [emojis_per_keyword] is negative, every key of the
    returned table has at least one entry. *)
Theorem returned_lists_are_not_empty a f out k l :
  (∀ kcap, emojis_per_keyword a = Some kcap → 0 ≤ kcap) →
  gen_emoji_lexicon a f = Ok out → (k, l) ∈ out → l ≠ [].
Proof.
  intros Hcap Hout Hin.
  destruct (out_list_inv _ _ _ _ _ Hout Hin)
    as (v & pre & j & Hv & Hpre & _ & -> & Hoff & Hpos & _).
  assert (pre ≠ []) as Hne.
  { unfold lists_before_sort in Hv.
    destruct (linked a f) as [t|] eqn:Hl; [|done]. injection Hv as <-.
    rewrite dget_view in Hpre.
    destruct (dget (keyword_dict t) k) as [r|] eqn:Hr; [|done].
    injection Hpre as <-.
    eapply linked_lists_nonempty; [done|]. by apply dget_Some_elem. }
  assert (0 < j)%nat as Hj.
  { destruct (emojis_per_keyword a) as [kcap|] eqn:Hk.
    - specialize (Hcap kcap eq_refl).
      destruct (decide (kcap = 0)) as [->|Hnz].
      + rewrite Hoff by done. destruct pre; [done | simpl; lia].
      + rewrite (Hpos kcap) by (done || lia). lia.
    - rewrite Hoff by done. destruct pre; [done | simpl; lia]. }
  pose proof (Permutation_length (sort_by_key_perm pre)) as Hlen.
  intros Hnil%(f_equal length).
  rewrite length_fmap, length_take in Hnil.
  destruct pre; [done|]. simpl in *. lia.
Qed.

(** X10. The keys of the returned table are those of the scan, in their
    order, followed by plurals of the noun map, in the order of the map;
    no key is there twice, and a scan that finds no keyword gives the
    empty table whatever the nouns are. *)
Theorem returned_keys a f t ps out :
  scanned a f = Ok t → plurals_to_singulars_dict (nouns_json f) = Ok ps →
  gen_emoji_lexicon a f = Ok out →
  (∃ added, dkeys out = dkeys (keyword_dict t) ++ added ∧
     added `sublist_of` dkeys ps) ∧
  NoDup (dkeys out) ∧
  (keyword_dict t = [] → out = []).
Proof.
  intros Hs Hps (t' & Hl & ->)%gen_emoji_lexicon_inv.
  pose proof (linked_valid _ _ _ Hl) as [Hnd _].
  destruct (linked_inv _ _ _ Hl) as (t0 & ps0 & Hs0 & Hps0 & Hkd & _).
  rewrite Hs in Hs0. injection Hs0 as <-.
  rewrite Hps in Hps0. injection Hps0 as <-.
  rewrite dkeys_fmap. split_and!; [|done|].
  - rewrite Hkd. apply link_all_keys.
  - intros Hempty. by rewrite Hkd, Hempty, link_all_empty.
Qed.

(** X11. [export_base_rank] changes the entries and nothing else: the
    table returned without it is the table returned with it, each entry
    reduced to its emoji. *)
Theorem export_base_rank_only_reshapes a f :
  gen_emoji_lexicon (with_export_base_rank false a) f =
    reduced <$> gen_emoji_lexicon (with_export_base_rank true a) f.
Proof.
  unfold gen_emoji_lexicon, run, ranked, reduced.
  change (linked (with_export_base_rank false a) f) with (linked a f).
  change (linked (with_export_base_rank true a) f) with (linked a f).
  destruct (linked a f) as [t|]; [|done]. csimpl. f_equal.
  unfold shaped. rewrite <-list_fmap_compose.
  apply list_fmap_ext. intros i [k l] _. simpl. f_equal.
  rewrite <-list_fmap_compose. by apply list_fmap_ext.
Qed.

(** X12. Every full entry of the returned table is determined by its
    emoji: it shows the rank of the emoji and whether the emoji is a
    modifier base, and an entry that is a base is of one code point at
    most. *)
Theorem entries_are_determined_by_their_emoji a f out k l s :
  gen_emoji_lexicon a f = Ok out → (k, l) ∈ out → Full s ∈ l →
  rank s = dget (popularity_dict (ranked_tsv f)) (emoji s) ∧
  is_base s = hasBinaryProperty_EMOJI_MODIFIER_BASE (emoji s) ∧
  (is_base s = true → (length (emoji s) ≤ 1)%nat).
Proof.
  intros Hout Hin Hs.
  destruct (out_entry_origin _ _ _ _ _ _ Hout Hin Hs)
    as (d & c & _ & _ & Hp & Heq).
  unfold shape in Heq. destruct (export_base_rank a); [|done].
  injection Heq as ->. simpl. split_and!; [done..|].
  intros Hb. unfold passes_all_filters in Hp.
  repeat apply andb_prop in Hp as [Hp ?].
  rewrite Hb in *. simpl in *.
  destruct (1 <? length c)%nat eqn:E; [done|]. apply Nat.ltb_ge in E. lia.
Qed.
End returned_lists.

(** ** The limits *)

Lemma filter_bind {A B} (P : B → Prop) `{∀ x, Decision (P x)}
    (g : A → list B) (l : list A) :
  filter P (l ≫= g) = l ≫= λ x, filter P (g x).
Proof.
  induction l as [|x l IH]; [done|].
  by rewrite !bind_cons, filter_app, IH.
Qed.

Lemma collect_filter (P : suggestion → bool) k (es : list (str * suggestion)) :
  collect k (filter (λ e, P e.2 = true) es) =
    filter (λ s, P s = true) (collect k es).
Proof.
  induction es as [|[k' x] es IH]; [done|].
  rewrite filter_cons, !collect_cons. cbn [fst snd].
  destruct (decide (P x = true)), (decide (k' = k));
    rewrite ?collect_cons, ?filter_cons; cbn [fst snd];
    rewrite ?decide_True, ?decide_False by done; by rewrite IH.
Qed.

Section limits.
Context `{Platform}.
Implicit Types (a : args) (f : files) (t : tables) (k : str).

Lemma passes_limit a pop c n :
  passes_all_filters (with_num_emojis (Some n) a) pop c =
    passes_all_filters (with_num_emojis None a) pop c &&
    within_limit (Some n) (dget pop c).
Proof.
  unfold passes_all_filters. simpl num_emojis.
  change (within_limit None (dget pop c)) with true.
  rewrite andb_true_r, <-!andb_assoc. do 2 f_equal.
  by destruct (within_limit (Some n) (dget pop c)),
    (negb (hasBinaryProperty_EMOJI_MODIFIER_BASE c && (1 <? length c)%nat)),
    (bool_decide (EMOJI_DATA c = Some fully_qualified)).
Qed.

Lemma char_entries_limit a ign pop d c n :
  char_entries (with_num_emojis (Some n) a) ign pop d c =
    filter (λ e, within_limit (Some n) (rank e.2) = true)
      (char_entries (with_num_emojis None a) ign pop d c).
Proof.
  unfold char_entries. rewrite passes_limit.
  destruct (passes_all_filters _ pop c); [|done]. cbn [andb].
  generalize (keywords_of ign (phrases_of d c)) as kws.
  destruct (within_limit (Some n) (dget pop c)) eqn:Hw;
    induction kws as [|kw kws IH]; try done;
    rewrite fmap_cons, filter_cons; cbn [snd rank suggest]; rewrite Hw.
  - rewrite decide_True by done. by rewrite <-IH.
  - rewrite decide_False by done. by rewrite <-IH.
Qed.

Lemma scan_entries_limit a f ign n :
  scan_entries (with_num_emojis (Some n) a) f ign =
    filter (λ e, within_limit (Some n) (rank e.2) = true)
      (scan_entries (with_num_emojis None a) f ign).
Proof.
  unfold scan_entries, file_entries. rewrite filter_app, !filter_bind.
  f_equal; (apply list_bind_ext; [|done]); intros c;
    apply char_entries_limit.
Qed.

Lemma char_error_limit a pop d c n e :
  char_error (with_num_emojis (Some n) a) pop d c = Some e →
  char_error (with_num_emojis None a) pop d c = Some e.
Proof.
  unfold char_error. rewrite passes_limit.
  destruct (passes_all_filters (with_num_emojis None a) pop c) eqn:Hp;
    cbn [andb]; [|done].
  destruct (within_limit (Some n) (dget pop c)); [done|].
  unfold passes_all_filters in Hp.
  repeat apply andb_prop in Hp as [Hp ?].
  destruct (EMOJI_DATA c); [|done]. by destruct (encode_utf8 c).
Qed.

Lemma scanned_result a f :
  let pop := popularity_dict (ranked_tsv f) in
  match or_else (ignore_error (ignore_keywords a))
          (or_else (first_error (char_error a pop (annotations f))
                      (dkeys (annotations f)))
             (first_error (char_error a pop (annotationsDerived f))
                (dkeys (annotationsDerived f)))) with
  | Some e => scanned a f = Raise e
  | None => ∃ t, scanned a f = Ok t
  end.
Proof.
  intros pop. unfold scanned. rewrite keywords_to_ignore_result.
  destruct (ignore_error (ignore_keywords a)) as [e|]; csimpl; [done|].
  set (ign := str_lower <$> strings_of (ignore_keywords a)).
  pose proof (process_file_result a ign pop (annotations f) empty_tables) as H1.
  fold pop. destruct (first_error _ (dkeys (annotations f))) as [e|]; csimpl.
  { by rewrite H1. }
  destruct H1 as [t1 ->]. csimpl.
  pose proof (process_file_result a ign pop (annotationsDerived f) t1) as H2.
  destruct (first_error _ (dkeys (annotationsDerived f))) as [e|]; csimpl.
  { by rewrite H2. }
  destruct H2 as [t2 ->]. by eauto.
Qed.

(** X13. [num_emojis] only takes entries away from the scan.  When the
    scan without a limit succeeds, so does the scan with the limit [n],
    and under every keyword it has the suggestions of the scan without a
    limit whose rank is within [n], in the same order; a keyword left
    with no suggestion is no key. *)
Theorem num_emojis_filters_the_scan a f n t0 :
  scanned (with_num_emojis None a) f = Ok t0 →
  ∃ t, scanned (with_num_emojis (Some n) a) f = Ok t ∧
    ∀ k, dget (view t) k =
      match filter (λ s, within_limit (Some n) (rank s) = true)
              (default [] (dget (view t0) k)) with
      | [] => None
      | l => Some l
      end.
Proof.
  intros Hs0.
  pose proof (scanned_result (with_num_emojis None a) f) as H0.
  pose proof (scanned_result (with_num_emojis (Some n) a) f) as Hn.
  cbv zeta in H0, Hn. change (ignore_keywords (with_num_emojis _ a))
    with (ignore_keywords a) in *.
  destruct (ignore_error (ignore_keywords a)) as [e|]; cbn [or_else] in *;
    [by rewrite H0 in Hs0|].
  set (pop := popularity_dict (ranked_tsv f)) in *.
  assert (∀ d, first_error (char_error (with_num_emojis None a) pop d) (dkeys d)
               = None →
               first_error (char_error (with_num_emojis (Some n) a) pop d)
                 (dkeys d) = None) as Hmono.
  { intros d Hd. apply first_error_None. intros c Hc.
    eapply first_error_None in Hd; [|exact Hc].
    destruct (char_error (with_num_emojis (Some n) a) pop d c) eqn:He; [|done].
    apply char_error_limit in He. congruence. }
  destruct (first_error _ (dkeys (annotations f))) as [e|] eqn:E1;
    cbn [or_else] in H0; [by rewrite H0 in Hs0|].
  rewrite (Hmono _ E1) in Hn. cbn [or_else] in Hn.
  destruct (first_error (char_error (with_num_emojis None a) pop _)
              (dkeys (annotationsDerived f))) as [e|] eqn:E2;
    [by rewrite H0 in Hs0|].
  rewrite (Hmono _ E2) in Hn. destruct Hn as [t Ht]. exists t.
  split; [done|]. intros k.
  apply scanned_view in Hs0 as (ign & Hign & _ & Hv0).
  apply scanned_view in Ht as (ign' & Hign' & _ & Hv).
  change (ignore_keywords (with_num_emojis _ a))
    with (ignore_keywords a) in *.
  rewrite Hign in Hign'. injection Hign' as <-.
  rewrite Hv, Hv0, !dget_add_all, scan_entries_limit.
  rewrite (collect_filter (λ s, within_limit (Some n) (rank s))).
  destruct (collect k (scan_entries (with_num_emojis None a) f ign))
    as [|x l]; [done|].
  change (default [] (Some (default [] (dget [] k) ++ x :: l))) with (x :: l).
  change (dget [] k) with (@None (list suggestion)).
  by destruct (filter _ (x :: l)).
Qed.

(** X14. A positive [emojis_per_keyword] only cuts: the table it gives
    has the keys of the table without a limit, each with the first [k]
    entries of its list there. *)
Theorem emojis_per_keyword_only_cuts a f kcap :
  0 < kcap →
  gen_emoji_lexicon (with_emojis_per_keyword (Some kcap) a) f =
    fmap (M := list) (λ kv : str * list entry, (kv.1, take (Z.to_nat kcap) kv.2))
      <$> gen_emoji_lexicon (with_emojis_per_keyword None a) f.
Proof.
  intros Hk. unfold gen_emoji_lexicon, run, ranked.
  change (linked (with_emojis_per_keyword _ a) f) with (linked a f).
  destruct (linked a f) as [t|] eqn:Hl; [|done]. csimpl. f_equal.
  apply linked_valid in Hl as [_ Hv].
  unfold shaped, view. rewrite <-!list_fmap_compose.
  apply list_fmap_ext. intros i [k r] Hi. simpl. f_equal.
  assert (r ∈ dvalues (keyword_dict t)) as Hr.
  { eapply elem_of_dvalues. by eapply list_elem_of_lookup_2. }
  assert (r < length (heap t))%nat as Hlt by (by eapply Forall_forall in Hv).
  pose proof (deref_sorted (Some kcap) t r Hlt) as E1.
  pose proof (deref_sorted None t r Hlt) as E2.
  apply visits_pos in Hr.
  rewrite iter_sort_and_cap_pos in E1 by done.
  rewrite iter_sort_and_cap_off in E2 by done.
  unfold sort_lists in E1, E2. cbn [heap keyword_dict] in E1, E2.
  by rewrite E1, E2, fmap_take.
Qed.
End limits.


(** ** [split] and [join] at a separator *)

Section split_on_facts.
Variable sep : N.
Implicit Types (field s : str) (fields : list str).

Lemma split_on_from_app field s1 s2 :
  split_on_from sep field (s1 ++ sep :: s2) =
    split_on_from sep field s1 ++ split_on sep s2.
Proof.
  revert field. induction s1 as [|c s1 IH]; intros field; simpl.
  - by rewrite decide_True.
  - case_decide; [by rewrite IH | apply IH].
Qed.

Lemma split_on_from_plain field s :
  sep ∉ s → split_on_from sep field s = [field ++ s].
Proof.
  revert field. induction s as [|c s IH]; intros field Hs; simpl.
  - by rewrite app_nil_r.
  - apply not_elem_of_cons in Hs as [Hc Hs].
    rewrite decide_False by done. by rewrite IH, <-app_assoc.
Qed.

Lemma split_on_from_not_nil field s : split_on_from sep field s ≠ [].
Proof.
  revert field. induction s as [|c s IH]; intros field; simpl; [done|].
  case_decide; [done | apply IH].
Qed.

Lemma join_cons x y fields :
  join [sep] (x :: y :: fields) = x ++ sep :: join [sep] (y :: fields).
Proof. done. Qed.

(** Joining the fields of a string gives the string back. *)
Lemma join_split_on_from field s :
  join [sep] (split_on_from sep field s) = field ++ s.
Proof.
  revert field. induction s as [|c s IH]; intros field; simpl.
  - by rewrite app_nil_r.
  - case_decide as Hc.
    + subst c. pose proof (split_on_from_not_nil [] s) as Hne.
      specialize (IH []). destruct (split_on_from sep [] s) as [|y l]; [done|].
      by rewrite join_cons, IH.
    + by rewrite IH, <-app_assoc.
Qed.

Lemma join_split_on s : join [sep] (split_on sep s) = s.
Proof. apply (join_split_on_from []). Qed.

(** Splitting the join of fields without the separator gives the fields
    back. *)
Lemma split_on_join fields :
  fields ≠ [] → Forall (λ x, sep ∉ x) fields →
  split_on sep (join [sep] fields) = fields.
Proof.
  unfold split_on. intros Hne Hall.
  induction Hall as [|x fields Hx Hall IH]; [done|].
  destruct fields as [|y fields].
  - by apply split_on_from_plain.
  - rewrite join_cons, split_on_from_app, split_on_from_plain by done.
    unfold split_on. by rewrite IH.
Qed.

Lemma split_on_from_fields field s :
  sep ∉ field → Forall (λ x, sep ∉ x) (split_on_from sep field s).
Proof.
  revert field. induction s as [|c s IH]; intros field Hf; simpl.
  - by constructor.
  - case_decide as Hc.
    + constructor; [done|]. apply IH, not_elem_of_nil.
    + apply IH. by intros [?| ->%list_elem_of_singleton]%elem_of_app.
Qed.

Lemma split_on_fields s : Forall (λ x, sep ∉ x) (split_on sep s).
Proof. apply split_on_from_fields, not_elem_of_nil. Qed.

(** A string has a second field when it has the separator. *)
Lemma split_on_from_second field s :
  is_Some (split_on_from sep field s !! 1%nat) ↔ sep ∈ s.
Proof.
  revert field. induction s as [|c s IH]; intros field; simpl.
  - split; [by intros [? ?] | by intros ?%elem_of_nil].
  - case_decide as Hc.
    + subst c. split; [intros _; left|]. intros _. simpl.
      pose proof (split_on_from_not_nil [] s).
      destruct (split_on_from sep [] s); [done | by eauto].
    + rewrite IH, elem_of_cons. split; [by right | by intros [->|?]].
Qed.
End split_on_facts.

Lemma length_rjust width fill (s : str) :
  length (rjust width fill s) = Nat.max width (length s).
Proof. unfold rjust. rewrite length_app, length_replicate. lia. Qed.

Lemma slice_to_minus_2 {A} (l : list A) :
  slice_to (-2) l = take (length l - 2) l.
Proof. unfold slice_to. simpl. f_equal. lia. Qed.

(** ** The files that [update_local_data] rewrites *)

Lemma pipe_not_in_count (total : str) :
  pipe ∉ total → pipe ∉ rjust 14 space total ++ [space].
Proof.
  intros Ht. unfold rjust. rewrite !not_elem_of_app. repeat split.
  - intros Hin%elem_of_replicate_inv. discriminate Hin.
  - done.
  - rewrite list_elem_of_singleton. discriminate.
Qed.

Lemma split_on_row (fields : list str) (count : str) :
  fields ≠ [] → Forall (λ x, pipe ∉ x) fields → pipe ∉ count →
  split_on pipe (join [pipe] fields ++ [pipe] ++ count ++ [pipe; newline]) =
    fields ++ [count; [newline]].
Proof.
  intros Hne Hall Hc. unfold split_on.
  change ([pipe] ++ count ++ [pipe; newline])
    with (pipe :: (count ++ pipe :: [newline])).
  rewrite split_on_from_app. fold (split_on pipe (join [pipe] fields)).
  rewrite split_on_join by done. f_equal.
  unfold split_on. rewrite split_on_from_app, split_on_from_plain by done.
  unfold split_on. rewrite split_on_from_plain; [done|].
  rewrite list_elem_of_singleton. discriminate.
Qed.

Section update_facts.
Context `{Platform}.
Variable capitalize : str → str.
Variable add_num_commas : nat → str.

Lemma rewrite_line_matching language total line column :
  split_on pipe line !! 1%nat = Some column →
  strip column = capitalize language →
  rewrite_line capitalize language total line =
    Some (join [pipe] (take (length (split_on pipe line) - 2)
                         (split_on pipe line)) ++
          [pipe] ++ (rjust 14 space total ++ [space]) ++ [pipe; newline]).
Proof.
  intros Hcol Hs. unfold rewrite_line. rewrite Hcol. csimpl.
  rewrite (bool_decide_eq_true_2 (strip column = capitalize language)) by done.
  rewrite slice_to_minus_2. do 2 f_equal.
  change (length (lit " Emoji Keywords") - 1)%nat with 14%nat.
  by rewrite <-!app_assoc.
Qed.

Lemma rewrite_line_None language total line :
  rewrite_line capitalize language total line = None ↔ pipe ∉ line.
Proof.
  pose proof (split_on_from_second pipe [] line) as Hsec.
  fold (split_on pipe line) in Hsec. unfold rewrite_line.
  destruct (split_on pipe line !! 1%nat) as [column|] eqn:E; csimpl.
  - split; [by case_bool_decide|]. intros Hn. destruct Hn. apply Hsec. eauto.
  - split; [|done]. intros _ Hin. apply Hsec in Hin. by destruct Hin.
Qed.

Lemma rewrite_data_table_None language total lines :
  rewrite_data_table capitalize language total lines = None ↔
    ∃ line, line ∈ lines ∧ pipe ∉ line.
Proof.
  unfold rewrite_data_table. rewrite mapM_None, Exists_exists.
  by setoid_rewrite rewrite_line_None.
Qed.

Lemma update_total_data_result language n current_data :
  update_total_data capitalize language n current_data =
    match dget current_data (capitalize language) with
    | None => Raise (KeyError (capitalize language))
    | Some counts =>
        Ok (dset current_data (capitalize language)
              (dset counts (lit "emoji_keywords") (Z.of_nat n)))
    end.
Proof.
  unfold update_total_data, getitem.
  by destruct (dget current_data (capitalize language)).
Qed.

(** X15. The row of the language in the data table: the line is cut at the
    last two bars and the count is put behind it, so the new line has the
    columns of the old one with the count in the last, the count column is
    fifteen characters wide when the count has at most fourteen, and when
    the language is not in the last two columns, rewriting the new line
    again leaves it as it is. *)
Theorem rewritten_row_keeps_its_columns language total line column :
  (3 ≤ length (split_on pipe line))%nat →
  split_on pipe line !! 1%nat = Some column →
  strip column = capitalize language →
  pipe ∉ total →
  ∃ line',
    rewrite_line capitalize language total line = Some line' ∧
    split_on pipe line' =
      take (length (split_on pipe line) - 2) (split_on pipe line) ++
      [rjust 14 space total ++ [space]; [newline]] ∧
    length (split_on pipe line') = length (split_on pipe line) ∧
    ((length total ≤ 14)%nat →
       length (rjust 14 space total ++ [space]) = 15%nat) ∧
    ((4 ≤ length (split_on pipe line))%nat →
       rewrite_line capitalize language total line' = Some line').
Proof.
  intros Hlen Hcol Hs Ht.
  set (fields := split_on pipe line) in *.
  assert (split_on pipe
            (join [pipe] (take (length fields - 2) fields) ++ [pipe] ++
             (rjust 14 space total ++ [space]) ++ [pipe; newline]) =
          take (length fields - 2) fields ++
          [rjust 14 space total ++ [space]; [newline]]) as Hsplit.
  { apply split_on_row.
    - intros Hnil%(f_equal length). rewrite length_take in Hnil.
      simpl in Hnil. lia.
    - apply Forall_take, split_on_fields.
    - by apply pipe_not_in_count. }
  pose proof (rewrite_line_matching language total line column Hcol Hs)
    as Hrw. fold fields in Hrw.
  eexists. split; [exact Hrw|].
  split; [exact Hsplit|]. split; [|split].
  - rewrite Hsplit, length_app, length_take. simpl. lia.
  - intros Hw. rewrite length_app, length_rjust. simpl. lia.
  - intros H4. rewrite (rewrite_line_matching _ _ _ column).
    + rewrite Hsplit. do 3 f_equal.
      rewrite length_app, length_take. simpl.
      replace ((length fields - 2) `min` length fields + 2 - 2)%nat
        with (length (take (length fields - 2) fields))
        by (rewrite length_take; lia).
      by rewrite take_app_length.
    + rewrite Hsplit, lookup_app_l by (rewrite length_take; lia).
      rewrite lookup_take_lt by lia. done.
    + done.
Qed.

(** X16. The loop over the data table: it raises [IndexError] exactly when
    a line has no bar; otherwise it keeps the number of lines and every
    line whose second column is not the language. *)
Theorem data_table_keeps_other_rows language total lines :
  (rewrite_data_table capitalize language total lines = None ↔
     ∃ line, line ∈ lines ∧ pipe ∉ line) ∧
  (∀ lines',
     rewrite_data_table capitalize language total lines = Some lines' →
     length lines' = length lines ∧
     ∀ i line column,
       lines !! i = Some line →
       split_on pipe line !! 1%nat = Some column →
       strip column ≠ capitalize language →
       lines' !! i = Some line).
Proof.
  split; [apply rewrite_data_table_None|]. unfold rewrite_data_table.
  intros lines' Hm. split; [symmetry; by eapply length_mapM|].
  intros i line column Hi Hcol Hne.
  apply mapM_Some_1 in Hm.
  destruct (Forall2_lookup_l _ _ _ _ _ Hm Hi) as (line' & Hi' & Hl).
  rewrite Hi'. unfold rewrite_line in Hl. rewrite Hcol in Hl.
  csimpl in Hl.
  rewrite (bool_decide_eq_false_2 (strip column = capitalize language))
    in Hl by done.
  by injection Hl as ->.
Qed.

(** X17. The count in [total_data.json]: a language that the file does not
    have raises [KeyError]; otherwise the entry ["emoji_keywords"] of the
    language is set to the number, and the languages, their order and
    every other number are kept. *)
Theorem total_data_sets_one_number language n current_data :
  match dget current_data (capitalize language) with
  | None =>
      update_total_data capitalize language n current_data =
        Raise (KeyError (capitalize language))
  | Some counts =>
      ∃ updated counts',
        update_total_data capitalize language n current_data = Ok updated ∧
        dkeys updated = dkeys current_data ∧
        (∀ l, l ≠ capitalize language →
              dget updated l = dget current_data l) ∧
        dget updated (capitalize language) = Some counts' ∧
        dget counts' (lit "emoji_keywords") = Some (Z.of_nat n) ∧
        (∀ field, field ≠ lit "emoji_keywords" →
                  dget counts' field = dget counts field)
  end.
Proof.
  rewrite update_total_data_result.
  destruct (dget current_data (capitalize language)) as [counts|] eqn:E;
    [|done].
  eexists _, _. split; [done|]. split; [|split; [|split; [|split]]].
  - apply dkeys_dset_old. by rewrite E.
  - intros l Hl. by apply dget_dset_ne.
  - apply dget_dset_eq.
  - apply dget_dset_eq.
  - intros field Hf. by apply dget_dset_ne.
Qed.

(** X18. The function with [update_local_data]: a run that raises leaves
    the error of the run; without the update the files are kept; with it,
    a line without a bar raises [IndexError] before the language is looked
    up, a language missing from [total_data.json] raises [KeyError], and
    otherwise the table returned is the table written to
    [emoji_keywords.json], whatever the update the same table as without
    it, and the number in [total_data.json] is the number of its keys. *)
Theorem update_local_data_writes_the_returned_table a language f fs :
  match gen_emoji_lexicon a f with
  | Raise e =>
      ∀ update,
        gen_emoji_lexicon_files capitalize add_num_commas a update language
          f fs = inr (Exn e)
  | Ok out =>
      gen_emoji_lexicon_files capitalize add_num_commas a false language f fs
        = inl (out, fs) ∧
      match gen_emoji_lexicon_files capitalize add_num_commas a true language
              f fs with
      | inr IndexError => ∃ line, line ∈ data_table_txt fs ∧ pipe ∉ line
      | inr (Exn e) =>
          Forall (λ line, pipe ∈ line) (data_table_txt fs) ∧
          e = KeyError (capitalize language) ∧
          dget (total_data_json fs) (capitalize language) = None
      | inl (out', fs') =>
          out' = out ∧
          emoji_keywords_json fs' = Some out ∧
          rewrite_data_table capitalize language
            (add_num_commas (length out)) (data_table_txt fs) =
            Some (data_table_txt fs') ∧
          ∃ counts,
            dget (total_data_json fs') (capitalize language) = Some counts ∧
            dget counts (lit "emoji_keywords") =
              Some (Z.of_nat (length out))
      end
  end.
Proof.
  unfold gen_emoji_lexicon_files.
  destruct (gen_emoji_lexicon a f) as [out|e]; [|done].
  split; [done|]. unfold update_local_files.
  pose proof (rewrite_data_table_None language
                (add_num_commas (length out)) (data_table_txt fs)) as Hnone.
  destruct (rewrite_data_table capitalize language
              (add_num_commas (length out)) (data_table_txt fs))
    as [lines|] eqn:Et.
  - rewrite update_total_data_result.
    destruct (dget (total_data_json fs) (capitalize language))
      as [counts|] eqn:Ed.
    + simpl. repeat split. eexists. split; apply dget_dset_eq.
    + split; [|done]. apply Forall_forall.
      intros line Hin. destruct (decide (pipe ∈ line)) as [|Hn]; [done|].
      assert (Some lines = None) as Hbad; [|done].
      apply Hnone. eauto.
  - by apply Hnone.
Qed.
End update_facts.

(** ** The properties at the sample *)

Import SampleFiles.

(** X1 at the example of the specification, which raises nothing. *)
Lemma run_raises_first_error_witness :
  run_error defaults happy = None ∧
  ∃ out, gen_emoji_lexicon defaults happy = Ok out.
Proof.
  assert (run_error defaults happy = None) as H0 by (by vm_compute).
  split; [exact H0|].
  exact (proj2 (proj2 (run_raises_first_error defaults happy)) H0).
Defined.

(** X2 at the example of the specification. *)
Lemma well_formed_inputs_return_witness :
  ignore_error (ignore_keywords defaults) = None ∧
  Forall scalar_value grinning ∧
  ∃ out, gen_emoji_lexicon defaults happy = Ok out.
Proof.
  assert (Forall scalar_value grinning) as Hg.
  { repeat constructor; unfold scalar_value; lia. }
  split_and!; [reflexivity | exact Hg |].
  apply (well_formed_inputs_return defaults happy).
  - reflexivity.
  - intros c [Hc|Hc] _.
    + apply list_elem_of_singleton in Hc. by rewrite Hc.
    + by apply elem_of_nil in Hc.
  - intros c ann [Hd|Hd].
    + apply dget_Some_elem, list_elem_of_singleton in Hd.
      injection Hd as _ ->. by eexists.
    + discriminate Hd.
  - intros row n Hd. discriminate Hd.
Defined.

(** X3 at a grinning face that has a [tts] list only. *)
Lemma missing_default_stops_the_run_witness :
  let ann := {| a_default := None; a_tts := Some [lit "grin"] |} in
  let f := {| ranked_tsv := []; annotations := [(grinning, ann)];
              annotationsDerived := []; nouns_json := [] |} in
  dget (annotations f) grinning = Some ann ∧
  passes_all_filters defaults (popularity_dict (ranked_tsv f)) grinning
    = true ∧
  ∃ e, gen_emoji_lexicon defaults f = Raise e.
Proof.
  intros ann f.
  assert (passes_all_filters defaults (popularity_dict (ranked_tsv f))
            grinning = true) as Hp by (by vm_compute).
  split_and!; [reflexivity | exact Hp |].
  exact (missing_default_stops_the_run defaults f (annotations f) grinning
           ann (or_introl eq_refl) eq_refl eq_refl Hp).
Defined.

(** X4 at the example with a noun that has no plural. *)
Lemma noun_without_plural_raises_witness :
  let f := {| ranked_tsv := ranked_tsv happy;
              annotations := annotations happy;
              annotationsDerived := [];
              nouns_json := [(lit "Dog", {| plural := None |})] |} in
  scanned defaults f = Ok (tables_of (scanned defaults f)) ∧
  gen_emoji_lexicon defaults f = Raise (KeyError (lit "plural")).
Proof.
  intros f.
  assert (scanned defaults f = Ok (tables_of (scanned defaults f))) as Hs
    by (by vm_compute).
  split; [exact Hs|].
  exact (noun_without_plural_raises defaults f _ (lit "Dog")
           {| plural := None |} Hs eq_refl eq_refl).
Defined.

(** X5 at a list of a string and a number. *)
Lemma ignore_keywords_are_lowercased_witness :
  let items := [ItemStr (lit "Run"); ItemInt 1] in
  ItemInt 1 ∈ items ∧ is_str (ItemInt 1) = false ∧
  gen_emoji_lexicon (with_ignore_keywords (PList items) defaults) zoo =
    Raise AttributeError.
Proof.
  intros items.
  assert (ItemInt 1 ∈ items) as Hin by (right; left).
  split_and!; [exact Hin | reflexivity |].
  exact (proj2 (proj2 (proj2 (ignore_keywords_are_lowercased defaults zoo))
                  items (ItemInt 1) Hin eq_refl)).
Defined.

(** X6 at the smiley, which the ranking of [zoo] does not name. *)
Lemma popularity_last_row_wins_witness :
  (smiling ∉ (ranked_tsv zoo).*1) ∧
  dget (popularity_dict (ranked_tsv zoo)) smiling = None.
Proof.
  assert (smiling ∉ (ranked_tsv zoo).*1) as Hn.
  { apply (bool_decide_unpack _). by vm_compute. }
  split; [exact Hn|].
  exact (proj1 (proj2 (popularity_last_row_wins (ranked_tsv zoo) smiling))
           Hn).
Defined.

(** X7 at the nouns of [zoo]. *)
Lemma noun_map_last_row_wins_witness :
  let ps := [(lit "cats", lit "cat"); (lit "faces", lit "face");
             (lit "dogs", lit "dog"); (lit "facets", lit "faces")] in
  plurals_to_singulars_dict (nouns_json zoo) = Ok ps ∧
  dkeys ps = first_occurrences (noun_pairs (nouns_json zoo)).*1.
Proof.
  intros ps.
  assert (plurals_to_singulars_dict (nouns_json zoo) = Ok ps) as Hps
    by (by vm_compute).
  split; [exact Hps|].
  exact (proj1 (proj2 (noun_map_last_row_wins (nouns_json zoo) ps Hps))).
Defined.

(** X8 at the scan of [zoo]. *)
Lemma scan_groups_contributions_witness :
  scanned defaults zoo = Ok zoo_scanned ∧
  ∃ ign, keywords_to_ignore (ignore_keywords defaults) = Ok ign ∧
    dkeys (keyword_dict zoo_scanned) =
      first_occurrences (scan_entries defaults zoo ign).*1.
Proof.
  assert (scanned defaults zoo = Ok zoo_scanned) as Hs by (by vm_compute).
  split; [exact Hs|].
  destruct (scan_groups_contributions defaults zoo zoo_scanned Hs)
    as (ign & Hign & Hkeys & _).
  exists ign. by split.
Defined.

(** X9 at the list of [happy]. *)
Lemma returned_lists_are_not_empty_witness :
  let happy_list :=
    [entry_of grinning (Some 1); entry_of grinning_cat (Some 50);
     entry_of smiling None] in
  emojis_per_keyword with_ranks = None ∧
  gen_emoji_lexicon with_ranks zoo = Ok zoo_ranked ∧
  (lit "happy", happy_list) ∈ zoo_ranked ∧
  happy_list ≠ [].
Proof.
  intros happy_list.
  assert (gen_emoji_lexicon with_ranks zoo = Ok zoo_ranked) as H1
    by (by vm_compute).
  assert ((lit "happy", happy_list) ∈ zoo_ranked) as H2 by left.
  split_and!; [reflexivity | exact H1 | exact H2 |].
  apply (returned_lists_are_not_empty with_ranks zoo zoo_ranked
           (lit "happy") happy_list); [|exact H1 | exact H2].
  intros kcap Hk. discriminate Hk.
Defined.

(** X10 at [zoo]: nine keys of the scan and three plurals. *)
Lemma returned_keys_witness :
  let ps := [(lit "cats", lit "cat"); (lit "faces", lit "face");
             (lit "dogs", lit "dog"); (lit "facets", lit "faces")] in
  scanned with_ranks zoo = Ok zoo_scanned ∧
  plurals_to_singulars_dict (nouns_json zoo) = Ok ps ∧
  gen_emoji_lexicon with_ranks zoo = Ok zoo_ranked ∧
  NoDup (dkeys zoo_ranked).
Proof.
  intros ps.
  assert (scanned with_ranks zoo = Ok zoo_scanned) as H1 by (by vm_compute).
  assert (plurals_to_singulars_dict (nouns_json zoo) = Ok ps) as H2
    by (by vm_compute).
  assert (gen_emoji_lexicon with_ranks zoo = Ok zoo_ranked) as H3
    by (by vm_compute).
  split_and!; [exact H1 | exact H2 | exact H3 |].
  exact (proj1 (proj2 (returned_keys with_ranks zoo _ _ _ H1 H2 H3))).
Defined.

(** X12 at the first entry of [happy]. *)
Lemma entries_are_determined_by_their_emoji_witness :
  let s := {| emoji := grinning; is_base := false; rank := Some 1 |} in
  let happy_list :=
    [Full s; entry_of grinning_cat (Some 50); entry_of smiling None] in
  gen_emoji_lexicon with_ranks zoo = Ok zoo_ranked ∧
  (lit "happy", happy_list) ∈ zoo_ranked ∧
  rank s = dget (popularity_dict (ranked_tsv zoo)) (emoji s).
Proof.
  intros s happy_list.
  assert (gen_emoji_lexicon with_ranks zoo = Ok zoo_ranked) as H1
    by (by vm_compute).
  assert ((lit "happy", happy_list) ∈ zoo_ranked) as H2 by left.
  assert (Full s ∈ happy_list) as H3 by left.
  split_and!; [exact H1 | exact H2 |].
  exact (proj1 (entries_are_determined_by_their_emoji with_ranks zoo _ _ _ _
                  H1 H2 H3)).
Defined.

(** X13 at [zoo] and the limit 20. *)
Lemma num_emojis_filters_the_scan_witness :
  let t0 := tables_of (scanned (with_num_emojis None with_ranks) zoo) in
  scanned (with_num_emojis None with_ranks) zoo = Ok t0 ∧
  ∃ t, scanned (with_num_emojis (Some 20) with_ranks) zoo = Ok t.
Proof.
  intros t0.
  assert (scanned (with_num_emojis None with_ranks) zoo = Ok t0) as H0
    by (by vm_compute).
  split; [exact H0|].
  destruct (num_emojis_filters_the_scan with_ranks zoo 20 t0 H0)
    as (t & Ht & _).
  by exists t.
Defined.

(** X14 at [zoo] and two emojis per keyword. *)
Lemma emojis_per_keyword_only_cuts_witness :
  0 < 2 ∧
  gen_emoji_lexicon (with_emojis_per_keyword (Some 2) with_ranks) zoo =
    fmap (M := list)
      (λ kv : str * list entry, (kv.1, take (Z.to_nat 2) kv.2))
      <$> gen_emoji_lexicon (with_emojis_per_keyword None with_ranks) zoo.
Proof.
  split; [lia|].
  apply (emojis_per_keyword_only_cuts with_ranks zoo 2). lia.
Defined.

(** X15 at the row of English. *)
Lemma rewritten_row_keeps_its_columns_witness :
  let line := lit "| English | 1,234 |          2,300 |" ++ [newline] in
  (3 ≤ length (split_on pipe line))%nat ∧
  split_on pipe line !! 1%nat = Some (lit " English ") ∧
  strip (lit " English ") = capitalize (lit "english") ∧
  (pipe ∉ lit "12") ∧
  rewrite_line capitalize (lit "english") (lit "12") line =
    Some (lit "| English | 1,234 |            12 |" ++ [newline]).
Proof.
  intros line.
  assert (3 ≤ length (split_on pipe line))%nat as H1
    by (vm_compute; lia).
  assert (split_on pipe line !! 1%nat = Some (lit " English ")) as H2
    by (by vm_compute).
  assert (strip (lit " English ") = capitalize (lit "english")) as H3
    by (by vm_compute).
  assert (pipe ∉ lit "12") as H4.
  { apply (bool_decide_unpack _). by vm_compute. }
  split_and!; [exact H1 | exact H2 | exact H3 | exact H4 |].
  destruct (rewritten_row_keeps_its_columns capitalize (lit "english")
              (lit "12") line (lit " English ") H1 H2 H3 H4)
    as (line' & Hl & _).
  rewrite Hl. by vm_compute.
Defined.

(** X16 at the sample table: the row of German is kept. *)
Lemma data_table_keeps_other_rows_witness :
  let german := lit "| German | 27,000 |          2,898 |" ++ [newline] in
  table_lines !! 2%nat = Some german ∧
  split_on pipe german !! 1%nat = Some (lit " German ") ∧
  strip (lit " German ") ≠ capitalize (lit "english") ∧
  ∃ lines',
    rewrite_data_table capitalize (lit "english") (lit "12") table_lines
      = Some lines' ∧
    lines' !! 2%nat = Some german.
Proof.
  intros german.
  assert (split_on pipe german !! 1%nat = Some (lit " German ")) as H2
    by (by vm_compute).
  assert (strip (lit " German ") ≠ capitalize (lit "english")) as H3
    by (by vm_compute).
  split_and!; [reflexivity | exact H2 | exact H3 |].
  destruct (rewrite_data_table capitalize (lit "english") (lit "12")
              table_lines) as [lines'|] eqn:E; [|by vm_compute in E].
  exists lines'. split; [done|].
  exact (proj2 (proj2 (data_table_keeps_other_rows capitalize (lit "english")
                         (lit "12") table_lines) lines' E)
           2%nat german (lit " German ") eq_refl H2 H3).
Defined.

(** X17 at the sample counts: German gets its number, English is kept. *)
Lemma total_data_sets_one_number_witness :
  lit "English" ≠ capitalize (lit "german") ∧
  ∃ updated,
    update_total_data capitalize (lit "german") 5 (total_data_json local)
      = Ok updated ∧
    dget updated (lit "English") =
      dget (total_data_json local) (lit "English").
Proof.
  assert (lit "English" ≠ capitalize (lit "german")) as Hne
    by (by vm_compute).
  split; [exact Hne|].
  pose proof (total_data_sets_one_number capitalize (lit "german") 5
                (total_data_json local)) as Hm.
  change (dget (total_data_json local) (capitalize (lit "german")))
    with (Some [(lit "nouns", 27000)]) in Hm.
  destruct Hm as (updated & counts' & Hu & _ & Hother & _).
  exists updated. split; [exact Hu|]. by apply Hother.
Defined.
